(** * SceneExtension: the per-frame pose update and the lifecycle of renderables

    A shallow embedding of [SceneExtension] (the base class of every 3D scene
    extension of the panel) together with the collaborators it drives: the
    error sink [renderer.settings.errors], the settings sink
    [renderer.settings], the panel configuration [renderer.config] and the
    transform tree.  Methods are state transformers on a [World]; every call
    that leaves the extension (pose updater, error sink, settings sink,
    configuration, [Renderable.dispose]) is also appended to a call log, so
    that statements about what is and is not invoked, and in which order,
    can be made. *)

From Stdlib Require Import ZArith Ascii String.
From stdpp Require Import gmap strings list fin_maps.

Open Scope string_scope.
Open Scope list_scope.

(** ** Data model *)

(** [AnyFrameId]: the name of a coordinate frame. *)
Definition AnyFrameId := string.

(** [Path] of [./LayerErrors]: a location in the settings tree. *)
Definition Path := list string.

(** The parts of the program that the extension only consumes.  [Pose]
    stands for the position and orientation that three.js keeps on an
    [Object3D]; [SettingsTreeNode] for the sidebar node type of
    [@foxglove/studio].  [TransformTree_apply] is the query of the transform
    tree: frame ids in the order render, fixed, source, then destination
    time and source time; [None] when no transform path exists. *)
Class Host := {
  Pose : Type;
  TransformTree : Type;
  SettingsTreeNode : Type;
  TransformTree_apply :
    TransformTree → AnyFrameId → AnyFrameId → AnyFrameId → Z → Z → option Pose
}.

(** [BaseSettings]: [visible: boolean; frameLocked?: boolean]. *)
Record BaseSettings := {
  visible : bool;
  frameLocked : option bool
}.

(** [BaseUserData], the fields that [SceneExtension] reads. *)
Record BaseUserData := {
  frameId : AnyFrameId;
  messageTime : Z;
  settings : BaseSettings;
  settingsPath : Path
}.

(** Values of the panel configuration and of [saveSetting]'s [value:
    unknown].  An object is its own properties, in a list with unique keys.
    For a plain object [arrayLength] is [None]; for an array it is the
    [length] of the array, and the list holds the elements that are present,
    each under its index.  Numbers are kept as integers: no claim computes
    with them. *)
#[warnings="-register-all"]
Inductive Value :=
| VUndefined
| VNull
| VBool (b : bool)
| VNum (n : Z)
| VStr (s : string)
| VObj (arrayLength : option Z) (props : list (string * Value)).

(** ** [set] and [unset] of lodash, on own properties *)

(** [value == undefined]: true of [undefined] and of [null] only. *)
Definition looselyUndefined (value : Value) : bool :=
  match value with
  | VUndefined | VNull => true
  | _ => false
  end.

(** The entry of a property list under [key]; [None] when there is none. *)
Fixpoint getOwn (key : string) (props : list (string * Value)) : option Value :=
  match props with
  | [] => None
  | (k, v) :: rest => if String.eqb k key then Some v else getOwn key rest
  end.

(** [object[key] = value] on a property list: an existing entry is
    overwritten in place, a new one is added. *)
Fixpoint assignValue (props : list (string * Value)) (key : string) (value : Value)
    : list (string * Value) :=
  match props with
  | [] => [(key, value)]
  | (k, v) :: rest =>
      if String.eqb k key then (k, value) :: rest
      else (k, v) :: assignValue rest key value
  end.

(** [delete object[key]] on a property list. *)
Fixpoint deleteOwn (key : string) (props : list (string * Value)) : list (string * Value) :=
  match props with
  | [] => []
  | (k, v) :: rest =>
      if String.eqb k key then deleteOwn key rest else (k, v) :: deleteOwn key rest
  end.

Definition isDigit (c : ascii) : bool :=
  (48 <=? nat_of_ascii c)%nat && (nat_of_ascii c <=? 57)%nat.

Fixpoint allDigits (s : string) : bool :=
  match s with
  | EmptyString => true
  | String c rest => isDigit c && allDigits rest
  end.

Fixpoint digitsValue (acc : Z) (s : string) : Z :=
  match s with
  | EmptyString => acc
  | String c rest => digitsValue (10 * acc + (Z.of_nat (nat_of_ascii c) - 48)) rest
  end.

(** [reIsUint]: a single zero, or a non-zero digit followed by digits. *)
Definition reIsUint (s : string) : bool :=
  match s with
  | EmptyString => false
  | String c rest =>
      if Ascii.eqb c "0"%char then String.eqb rest "" else isDigit c && allDigits rest
  end.

Definition MAX_SAFE_INTEGER : Z := 9007199254740991.

(** [isIndex] of a string key: an array index below [MAX_SAFE_INTEGER]. *)
Definition isIndex (key : string) : bool :=
  reIsUint key && (digitsValue 0 key <? MAX_SAFE_INTEGER)%Z.

(** The keys that [set] refuses to write through. *)
Definition unsafeKey (key : string) : bool :=
  String.eqb key "__proto__" || String.eqb key "constructor" || String.eqb key "prototype".

(** A key that is an index of an array, to the language: the decimal form of
    an integer below [2^32 - 1]; its number. *)
Definition arrayIndex (key : string) : option Z :=
  if reIsUint key && (digitsValue 0 key <? 4294967295)%Z then Some (digitsValue 0 key)
  else None.

(** The properties that a plain object inherits from [Object.prototype];
    [constructor] and [__proto__], inherited too, are among the unsafe
    keys. *)
Definition inheritedKey (key : string) : bool :=
  String.eqb key "toString" || String.eqb key "toLocaleString"
  || String.eqb key "valueOf" || String.eqb key "hasOwnProperty"
  || String.eqb key "isPrototypeOf" || String.eqb key "propertyIsEnumerable"
  || String.eqb key "__defineGetter__" || String.eqb key "__defineSetter__"
  || String.eqb key "__lookupGetter__" || String.eqb key "__lookupSetter__".

(** The own property [key] of an object or array: of an array, its [length]
    and the elements at its indices. *)
Definition getProperty (arrayLength : option Z) (props : list (string * Value))
    (key : string) : option Value :=
  match arrayLength with
  | None => getOwn key props
  | Some length =>
      if String.eqb key "length" then Some (VNum length)
      else
        match arrayIndex key with
        | Some _ => getOwn key props
        | None => None
        end
  end.

(** [object[key] = value].  On an array an index at or beyond the end
    extends the length.  An assignment to another property of an array (to
    its [length], which truncates, extends or throws by the value, or to a
    named property) is not modelled: [None]. *)
Definition assignProperty (arrayLength : option Z) (props : list (string * Value))
    (key : string) (value : Value) : option (option Z * list (string * Value)) :=
  match arrayLength with
  | None => Some (None, assignValue props key value)
  | Some length =>
      match arrayIndex key with
      | Some i => Some (Some (Z.max length (i + 1)), assignValue props key value)
      | None => None
      end
  end.

(** [delete object[key]].  Deleting an element of an array leaves a hole
    and the length as it is; the length itself cannot be deleted ([delete]
    gives [false] there, without an error: the code of lodash is not
    strict). *)
Definition deleteProperty (arrayLength : option Z) (props : list (string * Value))
    (key : string) : list (string * Value) :=
  match arrayLength with
  | None => deleteOwn key props
  | Some _ =>
      match arrayIndex key with
      | Some _ => deleteOwn key props
      | None => props
      end
  end.

(** The container that [set] makes where there is none: an array when the
    next key is an index, a plain object otherwise. *)
Definition freshContainer (next : string) : option Z :=
  if isIndex next then Some 0%Z else None.

(** The object that [set] goes on into under a [key] that is not the last,
    [next] being the key after it: the object found under [key] or, when
    what is found is no object, a fresh container.  Where a plain object has
    no such property of its own but inherits one (a function of
    [Object.prototype], which [set] would then write into), the result is
    not modelled: [None]. *)
Definition nestedAt (arrayLength : option Z) (props : list (string * Value))
    (key next : string) : option (option Z * list (string * Value)) :=
  match getProperty arrayLength props key with
  | Some (VObj a p) => Some (a, p)
  | Some _ => Some (freshContainer next, [])
  | None =>
      if (if arrayLength is None then true else false) && inheritedKey key then None
      else Some (freshContainer next, [])
  end.

(** [baseSet], the loop of [set(object, path, value)] for a path given as an
    array of keys, on the object or array with the properties [props].  On
    the way down, a property that is not an object is replaced by a fresh
    container; the walk stops at an unsafe key; an empty path changes
    nothing.  [None] where an assignment or a nested object is not
    modelled. *)
Fixpoint baseSet (arrayLength : option Z) (props : list (string * Value))
    (path : list string) (value : Value) : option (option Z * list (string * Value)) :=
  match path with
  | [] => Some (arrayLength, props)
  | key :: rest =>
      if unsafeKey key then Some (arrayLength, props)
      else
        match rest with
        | [] => assignProperty arrayLength props key value
        | next :: _ =>
            match nestedAt arrayLength props key next with
            | Some (a, p) =>
                match baseSet a p rest value with
                | Some (a', p') => assignProperty arrayLength props key (VObj a' p')
                | None => None
                end
            | None => None
            end
        end
  end.

(** [set] on the configuration, a plain object. *)
Definition lodash_set (props : list (string * Value)) (path : list string) (value : Value)
    : option (list (string * Value)) :=
  match baseSet None props path value with
  | Some (_, props') => Some props'
  | None => None
  end.

(** [baseUnset], for [unset(object, path)]: the last key is deleted from
    the object that the rest of the path leads to, if it leads to one.
    With an empty path the key deleted is the string that [undefined]
    converts to. *)
Fixpoint baseUnset (arrayLength : option Z) (props : list (string * Value))
    (path : list string) : list (string * Value) :=
  match path with
  | [] => deleteProperty arrayLength props "undefined"
  | key :: rest =>
      match rest with
      | [] => deleteProperty arrayLength props key
      | _ :: _ =>
          match getProperty arrayLength props key with
          | Some (VObj a inner) => assignValue props key (VObj a (baseUnset a inner rest))
          | _ => props
          end
      end
  end.

(** [unset] on the configuration. *)
Definition lodash_unset (props : list (string * Value)) (path : list string)
    : list (string * Value) :=
  baseUnset None props path.

(** The value found by following [path] through own properties, from an
    object or array; [None] when some key on the way is absent, and for the
    empty path. *)
Fixpoint valueIn (arrayLength : option Z) (props : list (string * Value))
    (path : list string) : option Value :=
  match path with
  | [] => None
  | key :: rest =>
      match rest with
      | [] => getProperty arrayLength props key
      | _ :: _ =>
          match getProperty arrayLength props key with
          | Some (VObj a inner) => valueIn a inner rest
          | _ => None
          end
      end
  end.

(** The value found at [path] in the configuration. *)
Definition valueAt (props : list (string * Value)) (path : list string) : option Value :=
  valueIn None props path.

(** Whether [path] leads to the [length] of an array. *)
Fixpoint lengthIn (arrayLength : option Z) (props : list (string * Value))
    (path : list string) : bool :=
  match path with
  | [] => false
  | key :: rest =>
      match rest with
      | [] => if arrayLength is Some _ then String.eqb key "length" else false
      | _ :: _ =>
          match getProperty arrayLength props key with
          | Some (VObj a inner) => lengthIn a inner rest
          | _ => false
          end
      end
  end.

Definition isArrayLength (props : list (string * Value)) (path : list string) : bool :=
  lengthIn None props path.

(** Whether [object[key] = value] is modelled: on an array, at an index
    only. *)
Definition assignable (arrayLength : option Z) (key : string) : bool :=
  match arrayLength, arrayIndex key with
  | Some _, None => false
  | _, _ => true
  end.

(** Whether [set] along [path] stays within what is modelled: every
    assignment to an array is at an index, and no property is read that a
    plain object only inherits. *)
Fixpoint setWithin (arrayLength : option Z) (props : list (string * Value))
    (path : list string) : bool :=
  match path with
  | [] => true
  | key :: rest =>
      if unsafeKey key then true
      else
        assignable arrayLength key &&
        match rest with
        | [] => true
        | next :: _ =>
            match nestedAt arrayLength props key next with
            | Some (a, p) => setWithin a p rest
            | None => false
            end
        end
  end.

Definition setModelled (props : list (string * Value)) (path : list string) : bool :=
  setWithin None props path.

(** Whether [path] leads from a plain object to a plain object through plain
    objects only. *)
Fixpoint plainAlong (props : list (string * Value)) (path : list string) : bool :=
  match path with
  | [] => true
  | key :: rest =>
      match getOwn key props with
      | Some (VObj None inner) => plainAlong inner rest
      | _ => false
      end
  end.

Section SceneExtension.
Context `{Host}.

(** A [Renderable]: a three.js object with an identity, the [visible] flag
    and pose of [THREE.Object3D], and its [userData]. *)
Record Renderable := {
  obj_id : nat;
  Object3D_visible : bool;
  pose : Pose;
  userData : BaseUserData
}.

(** [SettingsTreeEntry] of [./SettingsManager]. *)
Record SettingsTreeEntry := {
  path : Path;
  node : SettingsTreeNode
}.

(** Calls that leave the extension, in the order they are made. *)
Inductive Call :=
| Call_updatePose (obj : nat) (renderFrameId fixedFrameId srcFrameId : AnyFrameId)
    (dstTime srcTime : Z)
| Call_errors_add (p : Path) (errorId message : string)
| Call_errors_remove (p : Path) (errorId : string)
| Call_errors_clearPath (p : Path)
| Call_renderable_dispose (obj : nat)
| Call_updateConfig (draft : list (string * Value))
| Call_setNodesForKey (key : string) (nodes : list SettingsTreeEntry).

(** Closures handed to [queueMicrotask]. *)
Inductive Microtask :=
| Microtask_updateSettingsTree.

(** The extension ([extensionId], [name] of [THREE.Object3D], [renderables],
    [children], [membersAssigned]), the renderer it points to ([transformTree],
    [errors] for [renderer.settings.errors], [nodesForKey] for
    [renderer.settings], [config], the own properties of the configuration
    object) and the run-time ([microtasks], [calls]).
    [renderables] is the JavaScript [Map] in insertion order, which is the
    order [values()] iterates in; an entry carries the renderable it maps
    to, a renderable being held under one key of one extension.  [children]
    holds object identities.
    [membersAssigned] says whether the fields of the derived class have been
    initialised, which happens only after the base constructor returns. *)
Record World := {
  extensionId : string;
  name : string;
  renderables : list (string * Renderable);
  children : list nat;
  membersAssigned : bool;
  transformTree : TransformTree;
  errors : gmap Path (gmap string string);
  nodesForKey : gmap string (list SettingsTreeEntry);
  config : list (string * Value);
  microtasks : list Microtask;
  calls : list Call
}.

(** Methods a derived class may override.  [settingsNodes] reads the
    extension and the renderer and has no effect of its own. *)
Class Overrides := {
  settingsNodes : World → list SettingsTreeEntry
}.

(** The base class implementation returns an empty list. *)
Definition SceneExtension_settingsNodes (w : World) : list SettingsTreeEntry := [].

Definition Base : Overrides := {| settingsNodes := SceneExtension_settingsNodes |}.

(** *** Field updates *)

Definition set_renderables (rs : list (string * Renderable)) (w : World) : World :=
  {| extensionId := extensionId w; name := name w;
     renderables := rs; children := children w;
     membersAssigned := membersAssigned w; transformTree := transformTree w;
     errors := errors w; nodesForKey := nodesForKey w; config := config w;
     microtasks := microtasks w; calls := calls w |}.

Definition set_children (cs : list nat) (w : World) : World :=
  {| extensionId := extensionId w; name := name w;
     renderables := renderables w; children := cs;
     membersAssigned := membersAssigned w; transformTree := transformTree w;
     errors := errors w; nodesForKey := nodesForKey w; config := config w;
     microtasks := microtasks w; calls := calls w |}.

Definition set_membersAssigned (b : bool) (w : World) : World :=
  {| extensionId := extensionId w; name := name w;
     renderables := renderables w; children := children w;
     membersAssigned := b; transformTree := transformTree w;
     errors := errors w; nodesForKey := nodesForKey w; config := config w;
     microtasks := microtasks w; calls := calls w |}.

Definition set_errors (e : gmap Path (gmap string string)) (w : World) : World :=
  {| extensionId := extensionId w; name := name w;
     renderables := renderables w; children := children w;
     membersAssigned := membersAssigned w; transformTree := transformTree w;
     errors := e; nodesForKey := nodesForKey w; config := config w;
     microtasks := microtasks w; calls := calls w |}.

Definition set_nodesForKey (n : gmap string (list SettingsTreeEntry)) (w : World) : World :=
  {| extensionId := extensionId w; name := name w;
     renderables := renderables w; children := children w;
     membersAssigned := membersAssigned w; transformTree := transformTree w;
     errors := errors w; nodesForKey := n; config := config w;
     microtasks := microtasks w; calls := calls w |}.

Definition set_config (c : list (string * Value)) (w : World) : World :=
  {| extensionId := extensionId w; name := name w;
     renderables := renderables w; children := children w;
     membersAssigned := membersAssigned w; transformTree := transformTree w;
     errors := errors w; nodesForKey := nodesForKey w; config := c;
     microtasks := microtasks w; calls := calls w |}.

Definition set_microtasks (q : list Microtask) (w : World) : World :=
  {| extensionId := extensionId w; name := name w;
     renderables := renderables w; children := children w;
     membersAssigned := membersAssigned w; transformTree := transformTree w;
     errors := errors w; nodesForKey := nodesForKey w; config := config w;
     microtasks := q; calls := calls w |}.

Definition log (c : Call) (w : World) : World :=
  {| extensionId := extensionId w; name := name w;
     renderables := renderables w; children := children w;
     membersAssigned := membersAssigned w; transformTree := transformTree w;
     errors := errors w; nodesForKey := nodesForKey w; config := config w;
     microtasks := microtasks w; calls := calls w ++ [c] |}.

Definition set_pose (p : Pose) (r : Renderable) : Renderable :=
  {| obj_id := obj_id r; Object3D_visible := Object3D_visible r; pose := p;
     userData := userData r |}.

Definition set_Object3D_visible (b : bool) (r : Renderable) : Renderable :=
  {| obj_id := obj_id r; Object3D_visible := b; pose := pose r;
     userData := userData r |}.

(** ** The error sink, [renderer.settings.errors] *)

(** Modelled from the spec: the class [LayerErrors] of [./LayerErrors] is
    missing.  The spec describes a path-indexed error table with the
    path-keyed operations [add(path, errorKind, message)],
    [remove(path, errorKind)] and [clearPath(path)], where adding the same
    error kind at the same path replaces the message.  The table maps a
    path to the errors reported there, one message per error kind. *)
Definition LayerErrors_add (p : Path) (errorId message : string)
    (e : gmap Path (gmap string string)) : gmap Path (gmap string string) :=
  <[p := <[errorId := message]> (default ∅ (e !! p))]> e.

(** Modelled from the spec: [remove(path, errorKind)] of the missing
    [LayerErrors] takes the error of that kind off the path, if there. *)
Definition LayerErrors_remove (p : Path) (errorId : string)
    (e : gmap Path (gmap string string)) : gmap Path (gmap string string) :=
  alter (delete errorId) p e.

(** Modelled from the spec: [clearPath(path)] of the missing [LayerErrors]
    clears whatever is reported at the path. *)
Definition LayerErrors_clearPath (p : Path)
    (e : gmap Path (gmap string string)) : gmap Path (gmap string string) :=
  delete p e.

(** The message currently reported for [errorId] at path [p], if any. *)
Definition errorAt (e : gmap Path (gmap string string)) (p : Path) (errorId : string)
    : option string :=
  e !! p ≫= (.!! errorId).

(** Whether the table has a node for path [p]. *)
Definition hasPath (e : gmap Path (gmap string string)) (p : Path) : bool :=
  if e !! p is Some _ then true else false.

Definition errors_add (p : Path) (errorId message : string) (w : World) : World :=
  log (Call_errors_add p errorId message)
      (set_errors (LayerErrors_add p errorId message (errors w)) w).

Definition errors_remove (p : Path) (errorId : string) (w : World) : World :=
  log (Call_errors_remove p errorId)
      (set_errors (LayerErrors_remove p errorId (errors w)) w).

Definition errors_clearPath (p : Path) (w : World) : World :=
  log (Call_errors_clearPath p)
      (set_errors (LayerErrors_clearPath p (errors w)) w).

(** Modelled from the spec: [MISSING_TRANSFORM] and
    [missingTransformMessage] of [./renderables/transforms] are missing.
    The spec asks for a message naming the render frame, the fixed frame and
    the renderable's frame, and its scenario expects the renderable's frame
    first, then the render frame, then the fixed frame. *)
Definition MISSING_TRANSFORM : string := "MISSING_TRANSFORM".

(** Modelled from the spec: the message of the missing
    [missingTransformMessage], naming the three frames in the order of the
    scenario. *)
Definition missingTransformMessage (renderFrameId fixedFrameId srcFrameId : AnyFrameId)
    : string :=
  ("Missing transform from frame <" ++ srcFrameId ++ "> to frame <" ++ renderFrameId
     ++ "> through frame <" ++ fixedFrameId ++ ">")%string.

(** [s] occurs in [t]. *)
Definition names (t s : string) : Prop :=
  ∃ before after, t = (before ++ s ++ after)%string.

(** ** The pose updater *)

(** Modelled from the spec: [updatePose] of [./updatePose] is missing.
    By section 4.2 it resolves the chain source frame at source time, fixed
    frame, render frame at destination time by querying the transform tree;
    on success it writes the resulting position and orientation onto the
    renderable and returns success; on failure it leaves the pose untouched
    and returns failure; it never throws, and it is deterministic in the
    tree contents and its arguments. *)
Definition updatePose (r : Renderable) (renderFrameId fixedFrameId srcFrameId : AnyFrameId)
    (dstTime srcTime : Z) (w : World) : Renderable * bool * World :=
  let w := log (Call_updatePose (obj_id r) renderFrameId fixedFrameId srcFrameId
                  dstTime srcTime) w in
  match TransformTree_apply (transformTree w) renderFrameId fixedFrameId srcFrameId
          dstTime srcTime with
  | Some p => (set_pose p r, true, w)
  | None => (r, false, w)
  end.

(** ** [startFrame] *)

(** The body of the loop of [startFrame], for one renderable. *)
Definition startFrame_body (currentTime : Z) (renderFrameId fixedFrameId : AnyFrameId)
    (renderable : Renderable) (w : World) : Renderable * World :=
  let path := settingsPath (userData renderable) in
  let renderable :=
    set_Object3D_visible (visible (settings (userData renderable))) renderable in
  if negb (Object3D_visible renderable) then
    (renderable, errors_clearPath path w)
  else
    let frameLocked := default true (frameLocked (settings (userData renderable))) in
    let srcTime := if frameLocked then currentTime else messageTime (userData renderable) in
    let frameId := frameId (userData renderable) in
    let '(renderable, updated, w) :=
      updatePose renderable renderFrameId fixedFrameId frameId currentTime srcTime w in
    if negb updated then
      let message := missingTransformMessage renderFrameId fixedFrameId frameId in
      (renderable, errors_add path MISSING_TRANSFORM message w)
    else
      (renderable, errors_remove path MISSING_TRANSFORM w).

(** [for (const renderable of this.renderables.values())]: the body runs on
    the entries in order; each entry keeps its key. *)
Fixpoint startFrame_loop (currentTime : Z) (renderFrameId fixedFrameId : AnyFrameId)
    (rs : list (string * Renderable)) (w : World) : list (string * Renderable) * World :=
  match rs with
  | [] => ([], w)
  | (key, renderable) :: rest =>
      let '(renderable', w') :=
        startFrame_body currentTime renderFrameId fixedFrameId renderable w in
      let '(rest', w'') := startFrame_loop currentTime renderFrameId fixedFrameId rest w' in
      ((key, renderable') :: rest', w'')
  end.

(** [startFrame]: the loop over the map; the renderables it has mutated are
    the values of the map afterwards. *)
Definition startFrame (currentTime : Z) (renderFrameId fixedFrameId : AnyFrameId)
    (w : World) : World :=
  let '(rs, w') := startFrame_loop currentTime renderFrameId fixedFrameId (renderables w) w in
  set_renderables rs w'.

(** ** The settings sink and the configuration *)

(** Modelled from the spec: [setNodesForKey] of [./SettingsManager] is
    missing.  The spec describes a keyed registration
    [setNodesForKey(extensionId, nodes)] into a key-indexed settings tree
    that the extension writes and never reads back. *)
Definition setNodesForKey (key : string) (nodes : list SettingsTreeEntry) (w : World)
    : World :=
  log (Call_setNodesForKey key nodes)
      (set_nodesForKey (<[key := nodes]> (nodesForKey w)) w).

(** Modelled from the spec: [updateConfig] of [./Renderer] is missing.  The
    spec describes the configuration store as a nested-path mutable
    document that [updateConfig(mutatorFn)] mutates.  Where the mutator
    leaves what is modelled there is no state to go on from: [None]. *)
Definition updateConfig (mutator : list (string * Value) → option (list (string * Value)))
    (w : World) : option World :=
  match mutator (config w) with
  | Some draft => Some (log (Call_updateConfig draft) (set_config draft w))
  | None => None
  end.

Section Methods.
Context `{Overrides}.

Definition updateSettingsTree (w : World) : World :=
  setNodesForKey (extensionId w) (settingsNodes w) w.

Definition saveSetting (path : Path) (value : Value) (w : World) : option World :=
  match
    updateConfig (λ draft,
      if looselyUndefined value then Some (lodash_unset draft path)
      else lodash_set draft path value) w
  with
  | Some w => Some (updateSettingsTree w)
  | None => None
  end.

(** ** Teardown *)

(** Modelled from the spec: [dispose] of [./Renderable] is missing.  By the
    spec it releases the GPU-resident buffers the renderable holds, which
    are not part of the state kept here. *)
Definition Renderable_dispose (r : Renderable) (w : World) : World :=
  log (Call_renderable_dispose (obj_id r)) w.

(** [children.indexOf(object)] followed by [children.splice(index, 1)]. *)
Fixpoint spliceFirst (obj : nat) (cs : list nat) : list nat :=
  match cs with
  | [] => []
  | c :: rest => if decide (c = obj) then rest else c :: spliceFirst obj rest
  end.

(** [THREE.Object3D.remove]. *)
Definition Object3D_remove (obj : nat) (w : World) : World :=
  set_children (spliceFirst obj (children w)) w.

Definition dispose (w : World) : World :=
  let w := foldl (λ w kr, Renderable_dispose kr.2 w) w (renderables w) in
  let w := set_children [] w in
  set_renderables [] w.

Definition removeAllRenderables (w : World) : World :=
  let w := foldl (λ w kr, Object3D_remove (obj_id kr.2) (Renderable_dispose kr.2 w))
             w (renderables w) in
  let w := set_renderables [] w in
  updateSettingsTree w.

(** ** Construction and the deferred refresh *)

(** [queueMicrotask]. *)
Definition queueMicrotask (m : Microtask) (w : World) : World :=
  set_microtasks (microtasks w ++ [m]) w.

(** The constructor of the base class, run against the renderer that [w]
    holds: a fresh extension with an empty [Map] and no children, whose
    derived members are not yet assigned. *)
Definition constructor (id : string) (w : World) : World :=
  let this :=
    {| extensionId := id; name := id; renderables := []; children := [];
       membersAssigned := false; transformTree := transformTree w;
       errors := errors w; nodesForKey := nodesForKey w; config := config w;
       microtasks := microtasks w; calls := calls w |} in
  queueMicrotask Microtask_updateSettingsTree this.

(** [new Derived(...)]: the base constructor runs first, then the members of
    the derived class are assigned. *)
Definition construct_derived (id : string) (w : World) : World :=
  set_membersAssigned true (constructor id w).

Definition run_microtask (m : Microtask) (w : World) : World :=
  match m with
  | Microtask_updateSettingsTree => updateSettingsTree w
  end.

(** Modelled from the spec: the scheduling of the host is missing.  By
    sections 5 and 9 the deferred refresh is a zero-delay callback on the
    single-threaded cooperative scheduler, whose queue is drained when the
    current synchronous task has completed and before the next frame tick;
    frame updates are discrete tasks of their own.  The callbacks queued
    here queue nothing further, so one pass over the queue drains it. *)
Definition drain_microtasks (w : World) : World :=
  foldl (λ w m, run_microtask m w) (set_microtasks [] w) (microtasks w).

(** Modelled from the spec: the tasks of the host that matter here, the
    construction of a derived extension and a frame update. *)
Inductive Task :=
| Task_construct (id : string)
| Task_startFrame (currentTime : Z) (renderFrameId fixedFrameId : AnyFrameId).

(** Modelled from the spec: a task runs to completion, then the queue of
    deferred callbacks is drained. *)
Definition run_task (t : Task) (w : World) : World :=
  drain_microtasks
    match t with
    | Task_construct id => construct_derived id w
    | Task_startFrame currentTime renderFrameId fixedFrameId =>
        startFrame currentTime renderFrameId fixedFrameId w
    end.

End Methods.

End SceneExtension.

(** ** What one turn of the loop of [startFrame] amounts to *)

Section Frame.
Context `{Host}.

Definition add_calls (cs : list Call) (w : World) : World :=
  {| extensionId := extensionId w; name := name w;
     renderables := renderables w; children := children w;
     membersAssigned := membersAssigned w; transformTree := transformTree w;
     errors := errors w; nodesForKey := nodesForKey w; config := config w;
     microtasks := microtasks w; calls := calls w ++ cs |}.

(** The source time that lines 190-191 compute. *)
Definition srcTimeOf (currentTime : Z) (r : Renderable) : Z :=
  if default true (frameLocked (settings (userData r))) then currentTime
  else messageTime (userData r).

(** The source time as the specification words it. *)
Definition srcTimeSpec (currentTime : Z) (r : Renderable) : Z :=
  match frameLocked (settings (userData r)) with
  | None => currentTime
  | Some true => currentTime
  | Some false => messageTime (userData r)
  end.

(** The answer of the transform tree to the query made for [r]. *)
Definition resolved (currentTime : Z) (renderFrameId fixedFrameId : AnyFrameId)
    (tree : TransformTree) (r : Renderable) : option Pose :=
  TransformTree_apply tree renderFrameId fixedFrameId (frameId (userData r))
    currentTime (srcTimeOf currentTime r).

(** What the pose updater reports for [r]. *)
Definition updated (currentTime : Z) (renderFrameId fixedFrameId : AnyFrameId)
    (r : Renderable) (w : World) : bool :=
  (updatePose r renderFrameId fixedFrameId (frameId (userData r)) currentTime
     (srcTimeOf currentTime r) w).1.2.

Definition body_renderable (currentTime : Z) (renderFrameId fixedFrameId : AnyFrameId)
    (tree : TransformTree) (r : Renderable) : Renderable :=
  let r' := set_Object3D_visible (visible (settings (userData r))) r in
  if visible (settings (userData r)) then
    match resolved currentTime renderFrameId fixedFrameId tree r with
    | Some p => set_pose p r'
    | None => r'
    end
  else r'.

Definition body_errors (currentTime : Z) (renderFrameId fixedFrameId : AnyFrameId)
    (tree : TransformTree) (r : Renderable) (e : gmap Path (gmap string string))
    : gmap Path (gmap string string) :=
  let p := settingsPath (userData r) in
  if visible (settings (userData r)) then
    match resolved currentTime renderFrameId fixedFrameId tree r with
    | Some _ => LayerErrors_remove p MISSING_TRANSFORM e
    | None =>
        LayerErrors_add p MISSING_TRANSFORM
          (missingTransformMessage renderFrameId fixedFrameId (frameId (userData r))) e
    end
  else LayerErrors_clearPath p e.

Definition body_calls (currentTime : Z) (renderFrameId fixedFrameId : AnyFrameId)
    (tree : TransformTree) (r : Renderable) : list Call :=
  let p := settingsPath (userData r) in
  if visible (settings (userData r)) then
    [ Call_updatePose (obj_id r) renderFrameId fixedFrameId (frameId (userData r))
        currentTime (srcTimeOf currentTime r);
      match resolved currentTime renderFrameId fixedFrameId tree r with
      | Some _ => Call_errors_remove p MISSING_TRANSFORM
      | None =>
          Call_errors_add p MISSING_TRANSFORM
            (missingTransformMessage renderFrameId fixedFrameId (frameId (userData r)))
      end ]
  else [ Call_errors_clearPath p ].

(** The world in which the loop reaches the entry that follows [before]. *)
Definition loop_reaches (currentTime : Z) (renderFrameId fixedFrameId : AnyFrameId)
    (before : list (string * Renderable)) (w : World) : World :=
  (startFrame_loop currentTime renderFrameId fixedFrameId before w).2.

(** The calls to the pose updater among [cs], with their arguments. *)
Definition updatePose_calls (cs : list Call)
    : list (nat * AnyFrameId * AnyFrameId * AnyFrameId * Z * Z) :=
  omap (λ c, match c with
             | Call_updatePose obj rf ff src dst st => Some (obj, rf, ff, src, dst, st)
             | _ => None
             end) cs.

(** The calls that disposing of the renderables [rs] makes. *)
Definition dispose_calls (rs : list (string * Renderable)) : list Call :=
  map (λ kr, Call_renderable_dispose (obj_id kr.2)) rs.

Definition isErrorsCall (c : Call) : bool :=
  match c with
  | Call_errors_add _ _ _ | Call_errors_remove _ _ | Call_errors_clearPath _ => true
  | _ => false
  end.

(** A transformer of the error table that overwrites a fixed set of cells
    with fixed contents and leaves every other cell as it was.  The cells
    are the presence of a path and the message of an error kind at a path. *)
Definition assignment (f : gmap Path (gmap string string) → gmap Path (gmap string string))
    : Prop :=
  ∃ (wp vp : Path → bool) (we : Path → string → bool) (ve : Path → string → option string),
    (∀ e p, hasPath (f e) p = if wp p then vp p else hasPath e p) ∧
    (∀ e p k, errorAt (f e) p k = if we p k then ve p k else errorAt e p k).

End Frame.

(** ** A concrete host and extension, for the scenarios of the specification *)

Module Scenario.

(** A transform tree that knows, for some frames, their offset along one
    axis from the fixed frame; a pose is such an offset. *)
Fixpoint offsetOf (frame : AnyFrameId) (tree : list (AnyFrameId * Z)) : option Z :=
  match tree with
  | [] => None
  | (f, z) :: rest => if String.eqb f frame then Some z else offsetOf frame rest
  end.

Definition tree_apply (tree : list (AnyFrameId * Z))
    (renderFrameId fixedFrameId srcFrameId : AnyFrameId) (dstTime srcTime : Z) : option Z :=
  match offsetOf srcFrameId tree, offsetOf renderFrameId tree, offsetOf fixedFrameId tree with
  | Some src, Some render, Some _ => Some (src - render)%Z
  | _, _, _ => None
  end.

Definition host : Host :=
  {| Pose := Z; TransformTree := list (AnyFrameId * Z); SettingsTreeNode := string;
     TransformTree_apply := tree_apply |}.

#[local] Existing Instance host.

(** A derived class whose settings nodes are one for the extension and one
    per renderable, made from a member that exists once the members are
    assigned. *)
Definition derived : @Overrides host :=
  {| settingsNodes := λ w : @World host,
       if membersAssigned w then
         @Build_SettingsTreeEntry host ["layers"] (extensionId w) ::
         map (λ kr : string * @Renderable host,
                @Build_SettingsTreeEntry host (settingsPath (userData kr.2)) kr.1)
             (renderables w)
       else [] |}.

Definition lidar : @Renderable host :=
  {| obj_id := 1; Object3D_visible := true; pose := 0%Z;
     userData := {| frameId := "lidar"; messageTime := 500;
                    settings := {| visible := true; frameLocked := Some true |};
                    settingsPath := ["topics"; "/lidar"] |} |}.

Definition hidden : @Renderable host :=
  {| obj_id := 2; Object3D_visible := true; pose := 7%Z;
     userData := {| frameId := "camera"; messageTime := 900;
                    settings := {| visible := false; frameLocked := None |};
                    settingsPath := ["topics"; "/camera"] |} |}.

Definition pinned : @Renderable host :=
  {| obj_id := 3; Object3D_visible := true; pose := 0%Z;
     userData := {| frameId := "odom"; messageTime := 800;
                    settings := {| visible := true; frameLocked := Some false |};
                    settingsPath := ["topics"; "/odom"] |} |}.

(** The world of the scenarios: the tree knows [map], [base_link] and
    [odom] but not [lidar]; an error is on record at the path of [hidden]. *)
Definition world : @World host :=
  {| extensionId := "foxglove.PointClouds";
     name := "foxglove.PointClouds";
     renderables := [("/lidar", lidar); ("/camera", hidden); ("/odom", pinned)];
     children := [1; 2; 3; 9];
     membersAssigned := true;
     transformTree := [("map", 0%Z); ("base_link", 5%Z); ("odom", 2%Z)];
     errors := {[ ["topics"; "/camera"] := {[ MISSING_TRANSFORM := "stale" ]} ]};
     nodesForKey := ∅;
     config := [("followTf", VStr "base_link")];
     microtasks := [];
     calls := [] |}.

(** The same world with a camera in its configuration, whose target offset
    is an array of three numbers. *)
Definition world_with_camera : @World host :=
  {| extensionId := extensionId world; name := name world;
     renderables := renderables world;
     children := children world; membersAssigned := membersAssigned world;
     transformTree := transformTree world;
     errors := errors world; nodesForKey := nodesForKey world;
     config :=
       [ ("followTf", VStr "base_link");
         ("cameraState",
          VObj None
            [ ("distance", VNum 20);
              ("targetOffset",
               VObj (Some 3%Z) [("0", VNum 0); ("1", VNum 0); ("2", VNum 0)]) ]) ];
     microtasks := microtasks world; calls := calls world |}.

(** The same world once the tree has learnt [lidar]. *)
Definition world_with_lidar : @World host :=
  {| extensionId := extensionId world; name := name world;
     renderables := renderables world;
     children := children world; membersAssigned := membersAssigned world;
     transformTree := ("lidar", 12%Z) :: transformTree world;
     errors := errors world; nodesForKey := nodesForKey world; config := config world;
     microtasks := microtasks world; calls := calls world |}.

End Scenario.

(** ** The start screen of the data source dialog: the list of running instances *)

Module Start.

(** A string stands for a JavaScript string whose code units are all below
    256, one character for each code unit.  The names of the instances are
    such strings wherever a handler runs: the list is rendered with [btoa]
    of every name before any entry can be clicked, and [btoa] throws on a
    code unit above 255 (see [btoaOf] and [itemKeys] below). *)

(** [ArenaIntance], as the source spells it. *)
Record ArenaIntance := {
  name : string;
  robot : string;
  hostname : string;
  port : string;
  startedAt : string;
  secure : bool
}.

(** The fields of a data source factory that the dialog reads. *)
Record DataSource := {
  id : string;
  type : string
}.

(** [getHostOrigin], on [window.location.origin] and
    [window.location.ancestorOrigins]. *)
Definition getHostOrigin (origin : string) (ancestorOrigins : list string) : string :=
  let hostOrigin := origin in
  if String.eqb hostOrigin "null" && (0 <? length ancestorOrigins)%nat then
    match ancestorOrigins with
    | first :: _ => first
    | [] => hostOrigin
    end
  else hostOrigin.

(** The character class of the pattern of [replace]: a letter or a digit. *)
Definition isAlnum (c : ascii) : bool :=
  let n := nat_of_ascii c in
  ((97 <=? n) && (n <=? 122) || (65 <=? n) && (n <=? 90) || (48 <=? n) && (n <=? 57))%nat.

(** [s.replace(/[^a-zA-Z0-9]/g, "")]: every other character is dropped. *)
Fixpoint removeNonAlnum (s : string) : string :=
  match s with
  | EmptyString => EmptyString
  | String c rest =>
      if isAlnum c then String c (removeNonAlnum rest) else removeNonAlnum rest
  end.

(** The alphabet of base64. *)
Definition base64Alphabet : string :=
  "ABCDEFGHIJKLMNOPQRSTUVWXYZabcdefghijklmnopqrstuvwxyz0123456789+/".

(** The character for six bits, the most significant first. *)
Definition sextet (x5 x4 x3 x2 x1 x0 : bool) : ascii :=
  let index :=
    (32 * Nat.b2n x5 + 16 * Nat.b2n x4 + 8 * Nat.b2n x3 + 4 * Nat.b2n x2
     + 2 * Nat.b2n x1 + Nat.b2n x0)%nat in
  match String.get index base64Alphabet with
  | Some c => c
  | None => "="%char
  end.

(** [btoa] of the browser where it returns: the base64 form of a string of
    code units below 256 (on any other string it throws, see [btoaOf]).  A
    character is its eight bits, the least significant first. *)
Fixpoint btoa (s : string) : string :=
  match s with
  | EmptyString => EmptyString
  | String (Ascii a0 a1 a2 a3 a4 a5 a6 a7) EmptyString =>
      String (sextet a7 a6 a5 a4 a3 a2)
        (String (sextet a1 a0 false false false false) "==")
  | String (Ascii a0 a1 a2 a3 a4 a5 a6 a7)
      (String (Ascii b0 b1 b2 b3 b4 b5 b6 b7) EmptyString) =>
      String (sextet a7 a6 a5 a4 a3 a2)
        (String (sextet a1 a0 b7 b6 b5 b4)
           (String (sextet b3 b2 b1 b0 false false) "="))
  | String (Ascii a0 a1 a2 a3 a4 a5 a6 a7)
      (String (Ascii b0 b1 b2 b3 b4 b5 b6 b7)
         (String (Ascii c0 c1 c2 c3 c4 c5 c6 c7) rest)) =>
      String (sextet a7 a6 a5 a4 a3 a2)
        (String (sextet a1 a0 b7 b6 b5 b4)
           (String (sextet b3 b2 b1 b0 c7 c6)
              (String (sextet c5 c4 c3 c2 c1 c0) (btoa rest))))
  end.

(** The string of code units, when they are all below 256. *)
Fixpoint latin1 (units : list N) : option string :=
  match units with
  | [] => Some EmptyString
  | unit :: rest =>
      if (unit <? 256)%N then
        match latin1 rest with
        | Some s => Some (String (ascii_of_N unit) s)
        | None => None
        end
      else None
  end.

(** [btoa] of the browser on any string, given as its code units: with a
    code unit above 255 it throws [InvalidCharacterError], which is
    [None]. *)
Definition btoaOf (units : list N) : option string :=
  match latin1 units with
  | Some s => Some (btoa s)
  | None => None
  end.

(** The keys of the entries of the list, [btoa(instance.name)] for the
    names of [running.json] in turn: the render throws with the first name
    that [btoa] refuses. *)
Fixpoint itemKeys (names : list (list N)) : option (list string) :=
  match names with
  | [] => Some []
  | units :: rest =>
      match btoaOf units with
      | Some key =>
          match itemKeys rest with
          | Some keys => Some (key :: keys)
          | None => None
          end
      | None => None
      end
  end.

(** What the handlers of the list do to the outside: a call of the state
    setter, of [layoutActions.importFromURL] (with the instance its callback
    has captured) and of [selectSource] (with the [type] and [params.url] of
    its second argument). *)
Inductive Effect :=
| setLoadingInstance (value : option string)
| importFromURL (url : string) (captured : ArenaIntance)
| selectSource (sourceId : string) (argsType : string) (url : string).

(** Whether a value of type [string | undefined] counts as true in a
    condition: a string that is not empty. *)
Definition truthy (value : option string) : bool :=
  match value with
  | Some s => negb (String.eqb s "")
  | None => false
  end.

(** [importRobotAndConnect], for the [loadingInstance] of the render that
    made the handler. *)
Definition importRobotAndConnect (origin : string) (ancestorOrigins : list string)
    (loadingInstance : option string) (instance : ArenaIntance) : list Effect :=
  if truthy loadingInstance then []
  else
    let robot := removeNonAlnum (robot instance) in
    [ setLoadingInstance (Some (btoa (name instance)));
      importFromURL
        (getHostOrigin origin ancestorOrigins ++ "/foxglove-assets/robot/" ++ robot
           ++ "/layout.json")%string
        instance ].

(** The callback that [importRobotAndConnect] hands to [importFromURL]. *)
Definition onLayoutImported (availableSources : list DataSource) (instance : ArenaIntance)
    : list Effect :=
  match
    find (λ source, String.eqb (type source) "connection"
                    && String.eqb (id source) "foxglove-websocket") availableSources
  with
  | None => []
  | Some foxgloveWebSocketSource =>
      [ selectSource (id foxgloveWebSocketSource) "connection"
          ((if secure instance then "wss://" else "ws://") ++ hostname instance ++ ":"
             ++ port instance)%string;
        setLoadingInstance None ]
  end.

(** The secondary text of the entry of an instance; [startedAtText] is the
    date of [startedAt] as [toLocaleString] prints it. *)
Definition secondaryText (instance : ArenaIntance) (startedAtText : string) : string :=
  ("URL: " ++ (if secure instance then "wss://" else "ws://") ++ hostname instance ++ ":"
     ++ port instance ++ " | Started at: " ++ startedAtText)%string.

(** [loadingInstance == btoa(instance.name)]: whether the entry of an
    instance shows the progress indicator. *)
Definition showsProgress (loadingInstance : option string) (instance : ArenaIntance) : bool :=
  match loadingInstance with
  | Some s => String.eqb s (btoa (name instance))
  | None => false
  end.

(** The state of [SidebarItems] that the handlers read and write, with the
    effects performed so far. *)
Record Sidebar := {
  loadingInstance : option string;
  performed : list Effect
}.

Definition perform (st : Sidebar) (e : Effect) : Sidebar :=
  {| loadingInstance :=
       match e with
       | setLoadingInstance value => value
       | _ => loadingInstance st
       end;
     performed := performed st ++ [e] |}.

(** What happens to the list: an entry is clicked, or an import that a click
    started calls back. *)
Inductive Event :=
| Click (instance : ArenaIntance)
| LayoutImported (instance : ArenaIntance).

(** A handler runs against the state of the latest render, and its calls of
    the setter make the state of the next. *)
Definition handle (origin : string) (ancestorOrigins : list string)
    (availableSources : list DataSource) (st : Sidebar) (ev : Event) : Sidebar :=
  foldl perform st
    match ev with
    | Click instance =>
        importRobotAndConnect origin ancestorOrigins (loadingInstance st) instance
    | LayoutImported instance => onLayoutImported availableSources instance
    end.

(** The Refresh button of [Start] gives [SidebarItems] a new key: the list
    is mounted anew, with the initial state of [useState]. *)
Definition remount (st : Sidebar) : Sidebar :=
  {| loadingInstance := None; performed := performed st |}.

(** Instances and sources to try the handlers on. *)
Definition jackal : ArenaIntance :=
  {| name := "sim-1"; robot := "../jack al"; hostname := "arena.local"; port := "8765";
     startedAt := "2023-05-01T10:00:00Z"; secure := true |}.

Definition burger : ArenaIntance :=
  {| name := "sim-2"; robot := "burger"; hostname := "10.0.0.7"; port := "8766";
     startedAt := "2023-05-01T11:00:00Z"; secure := false |}.

Definition sources : list DataSource :=
  [ {| id := "mcap-local-file"; type := "file" |};
    {| id := "foxglove-websocket"; type := "connection" |};
    {| id := "rosbridge-websocket"; type := "connection" |} ].

Definition idle : Sidebar := {| loadingInstance := None; performed := [] |}.

End Start.

(** * Properties *)

Section FrameFacts.
Context `{Host}.

Implicit Types (w : World) (r : Renderable) (e : gmap Path (gmap string string)).
Implicit Types (rs : list (string * Renderable)) (cs : list Call).

Lemma world_eq w w' :
  extensionId w = extensionId w' → name w = name w' →
  renderables w = renderables w' →
  children w = children w' → membersAssigned w = membersAssigned w' →
  transformTree w = transformTree w' → errors w = errors w' →
  nodesForKey w = nodesForKey w' → config w = config w' →
  microtasks w = microtasks w' → calls w = calls w' → w = w'.
Proof. destruct w, w'; simpl; intros; by subst. Qed.

Lemma add_calls_nil w : add_calls [] w = w.
Proof. apply world_eq; simpl; try done. apply app_nil_r. Qed.

Lemma add_calls_app cs1 cs2 w : add_calls cs2 (add_calls cs1 w) = add_calls (cs1 ++ cs2) w.
Proof. apply world_eq; simpl; try done. by rewrite app_assoc. Qed.

(** One turn of the loop, in closed form. *)
Lemma startFrame_body_eq ct rf ff r w :
  startFrame_body ct rf ff r w =
    (body_renderable ct rf ff (transformTree w) r,
     add_calls (body_calls ct rf ff (transformTree w) r)
       (set_errors (body_errors ct rf ff (transformTree w) r (errors w)) w)).
Proof.
  unfold startFrame_body, body_renderable, body_errors, body_calls, resolved, srcTimeOf.
  simpl. destruct (visible (settings (userData r))); simpl.
  - unfold updatePose; simpl.
    destruct (TransformTree_apply _ _ _ _ _ _); simpl;
      (f_equal; apply world_eq; simpl; try done; by rewrite <- app_assoc).
  - f_equal.
Qed.

(** The whole loop, in closed form. *)
Lemma startFrame_loop_eq ct rf ff rs w :
  startFrame_loop ct rf ff rs w =
    (map (λ kr, (kr.1, body_renderable ct rf ff (transformTree w) kr.2)) rs,
     add_calls (flat_map (λ kr, body_calls ct rf ff (transformTree w) kr.2) rs)
       (set_errors
          (foldl (λ e kr, body_errors ct rf ff (transformTree w) kr.2 e) (errors w) rs) w)).
Proof.
  revert w. induction rs as [|[key r] rest IH]; intros w; simpl.
  - f_equal. apply world_eq; simpl; try done. by rewrite app_nil_r.
  - rewrite startFrame_body_eq, IH. simpl. f_equal.
    apply world_eq; simpl; try done. by rewrite <- !app_assoc.
Qed.

Lemma startFrame_eq ct rf ff w :
  startFrame ct rf ff w =
    set_renderables
      (map (λ kr, (kr.1, body_renderable ct rf ff (transformTree w) kr.2)) (renderables w))
      (add_calls (flat_map (λ kr, body_calls ct rf ff (transformTree w) kr.2) (renderables w))
         (set_errors
            (foldl (λ e kr, body_errors ct rf ff (transformTree w) kr.2 e) (errors w)
               (renderables w)) w)).
Proof. unfold startFrame. by rewrite startFrame_loop_eq. Qed.

Lemma loop_reaches_split ct rf ff before key r after w :
  (startFrame_loop ct rf ff (before ++ (key, r) :: after) w).2 =
  (startFrame_loop ct rf ff after
     (startFrame_body ct rf ff r (loop_reaches ct rf ff before w)).2).2.
Proof.
  unfold loop_reaches. rewrite !startFrame_loop_eq, startFrame_body_eq. simpl.
  apply world_eq; simpl; try done.
  - by rewrite foldl_app.
  - by rewrite flat_map_app, <- !app_assoc.
Qed.

Lemma srcTimeOf_spec ct r : srcTimeOf ct r = srcTimeSpec ct r.
Proof.
  unfold srcTimeOf, srcTimeSpec.
  by destruct (frameLocked (settings (userData r))) as [[]|].
Qed.

Lemma updatePose_calls_app cs1 cs2 :
  updatePose_calls (cs1 ++ cs2) = updatePose_calls cs1 ++ updatePose_calls cs2.
Proof. apply omap_app. Qed.

Lemma updatePose_calls_frame ct rf ff tree rs :
  updatePose_calls (flat_map (λ kr, body_calls ct rf ff tree kr.2) rs) =
  map (λ kr, (obj_id kr.2, rf, ff, frameId (userData kr.2), ct, srcTimeOf ct kr.2))
      (filter (λ kr, visible (settings (userData kr.2)) = true) rs).
Proof.
  induction rs as [|[key r] rest IH]; [done|]. simpl.
  rewrite updatePose_calls_app, IH. unfold body_calls.
  rewrite filter_cons. simpl.
  destruct (visible (settings (userData r))) eqn:Hv; simpl.
  - by destruct (resolved ct rf ff tree r).
  - done.
Qed.

(** C2: in [startFrame], the calls made to the pose updater are, in order,
    one for each visible renderable, and the source time passed is
    [currentTime] when [frameLocked] is unset or true and the renderable's
    own [messageTime] when [frameLocked] is false. *)
Theorem startFrame_source_time ct rf ff w :
  ∃ new,
    calls (startFrame ct rf ff w) = calls w ++ new ∧
    updatePose_calls new =
      map (λ kr, (obj_id kr.2, rf, ff, frameId (userData kr.2), ct,
                  match frameLocked (settings (userData kr.2)) with
                  | None | Some true => ct
                  | Some false => messageTime (userData kr.2)
                  end))
          (filter (λ kr, visible (settings (userData kr.2)) = true) (renderables w)).
Proof.
  rewrite startFrame_eq. simpl. eexists; split; [reflexivity|].
  rewrite updatePose_calls_frame. apply map_ext. intros [key r]. simpl.
  by rewrite srcTimeOf_spec.
Qed.

(** *** The error table, cell by cell *)

Lemma errors_ext e e' :
  (∀ p, hasPath e p = hasPath e' p) →
  (∀ p k, errorAt e p k = errorAt e' p k) → e = e'.
Proof.
  intros Hp He. apply map_eq. intros p.
  specialize (Hp p). specialize (He p). unfold hasPath, errorAt in *.
  destruct (e !! p) as [m|], (e' !! p) as [m'|]; simpl in *; try done.
  f_equal. by apply map_eq.
Qed.

Lemma hasPath_add p k m e q :
  hasPath (LayerErrors_add p k m e) q = if bool_decide (q = p) then true else hasPath e q.
Proof.
  unfold hasPath, LayerErrors_add. case_bool_decide; subst.
  - by rewrite lookup_insert_eq.
  - by rewrite lookup_insert_ne.
Qed.

Lemma errorAt_add p k m e q k' :
  errorAt (LayerErrors_add p k m e) q k' =
    if bool_decide (q = p) && bool_decide (k' = k) then Some m else errorAt e q k'.
Proof.
  unfold errorAt, LayerErrors_add. case_bool_decide; subst; simpl.
  - rewrite lookup_insert_eq. simpl. case_bool_decide; subst.
    + by rewrite lookup_insert_eq.
    + rewrite lookup_insert_ne by done. by destruct (e !! p).
  - by rewrite lookup_insert_ne.
Qed.

Lemma hasPath_remove p k e q : hasPath (LayerErrors_remove p k e) q = hasPath e q.
Proof.
  unfold hasPath, LayerErrors_remove. destruct (decide (q = p)); subst.
  - rewrite lookup_alter_eq. by destruct (e !! p).
  - by rewrite lookup_alter_ne.
Qed.

Lemma errorAt_remove p k e q k' :
  errorAt (LayerErrors_remove p k e) q k' =
    if bool_decide (q = p) && bool_decide (k' = k) then None else errorAt e q k'.
Proof.
  unfold errorAt, LayerErrors_remove. case_bool_decide; subst; simpl.
  - rewrite lookup_alter_eq. destruct (e !! p) as [m|]; simpl.
    + case_bool_decide; subst.
      * by rewrite lookup_delete_eq.
      * by rewrite lookup_delete_ne.
    + by case_bool_decide.
  - by rewrite lookup_alter_ne.
Qed.

Lemma hasPath_clearPath p e q :
  hasPath (LayerErrors_clearPath p e) q = if bool_decide (q = p) then false else hasPath e q.
Proof.
  unfold hasPath, LayerErrors_clearPath. case_bool_decide; subst.
  - by rewrite lookup_delete_eq.
  - by rewrite lookup_delete_ne.
Qed.

Lemma errorAt_clearPath p e q k' :
  errorAt (LayerErrors_clearPath p e) q k' =
    if bool_decide (q = p) then None else errorAt e q k'.
Proof.
  unfold errorAt, LayerErrors_clearPath. case_bool_decide; subst.
  - by rewrite lookup_delete_eq.
  - by rewrite lookup_delete_ne.
Qed.

(** *** Assignments compose, and an assignment is idempotent *)

Lemma assignment_add p k m : assignment (LayerErrors_add p k m).
Proof.
  exists (λ q, bool_decide (q = p)), (λ _, true),
         (λ q k', bool_decide (q = p) && bool_decide (k' = k)), (λ _ _, Some m).
  split; intros; [apply hasPath_add | apply errorAt_add].
Qed.

Lemma assignment_remove p k : assignment (LayerErrors_remove p k).
Proof.
  exists (λ _, false), (λ _, true),
         (λ q k', bool_decide (q = p) && bool_decide (k' = k)), (λ _ _, None).
  split; intros; [apply hasPath_remove | apply errorAt_remove].
Qed.

Lemma assignment_clearPath p : assignment (LayerErrors_clearPath p).
Proof.
  exists (λ q, bool_decide (q = p)), (λ _, false),
         (λ q _, bool_decide (q = p)), (λ _ _, None).
  split; intros; [apply hasPath_clearPath | apply errorAt_clearPath].
Qed.

Lemma assignment_id : assignment (λ e, e).
Proof. exists (λ _, false), (λ _, true), (λ _ _, false), (λ _ _, None). done. Qed.

Lemma assignment_compose f g : assignment f → assignment g → assignment (λ e, g (f e)).
Proof.
  intros (wp & vp & we & ve & Hfp & Hfe) (wp' & vp' & we' & ve' & Hgp & Hge).
  exists (λ p, wp' p || wp p), (λ p, if wp' p then vp' p else vp p),
         (λ p k, we' p k || we p k), (λ p k, if we' p k then ve' p k else ve p k).
  split.
  - intros e p. rewrite Hgp, Hfp. by destruct (wp' p), (wp p).
  - intros e p k. rewrite Hge, Hfe. by destruct (we' p k), (we p k).
Qed.

Lemma assignment_idempotent f e : assignment f → f (f e) = f e.
Proof.
  intros (wp & vp & we & ve & Hp & He). apply errors_ext.
  - intros p. rewrite (Hp (f e)), (Hp e). by destruct (wp p).
  - intros p k. rewrite (He (f e)), (He e). by destruct (we p k).
Qed.

Lemma assignment_body_errors ct rf ff tree r : assignment (body_errors ct rf ff tree r).
Proof.
  unfold body_errors. destruct (visible _); [destruct (resolved _ _ _ _ _)|];
    auto using assignment_add, assignment_remove, assignment_clearPath.
Qed.

Lemma assignment_frame ct rf ff tree rs :
  assignment (λ e, foldl (λ e kr, body_errors ct rf ff tree kr.2 e) e rs).
Proof.
  induction rs as [|[key r] rest IH]; simpl; [apply assignment_id|].
  apply (assignment_compose (body_errors ct rf ff tree r)
           (λ e, foldl (λ e kr, body_errors ct rf ff tree kr.2 e) e rest));
    [apply assignment_body_errors | apply IH].
Qed.

(** *** A renderable after its turn *)

Lemma body_renderable_userData ct rf ff tree r :
  userData (body_renderable ct rf ff tree r) = userData r.
Proof.
  unfold body_renderable. destruct (visible _); [destruct (resolved _ _ _ _ _)|]; done.
Qed.

Lemma body_renderable_obj_id ct rf ff tree r :
  obj_id (body_renderable ct rf ff tree r) = obj_id r.
Proof.
  unfold body_renderable. destruct (visible _); [destruct (resolved _ _ _ _ _)|]; done.
Qed.

Lemma resolved_body_renderable ct rf ff tree r :
  resolved ct rf ff tree (body_renderable ct rf ff tree r) = resolved ct rf ff tree r.
Proof. unfold resolved, srcTimeOf. by rewrite body_renderable_userData. Qed.

Lemma body_renderable_idempotent ct rf ff tree r :
  body_renderable ct rf ff tree (body_renderable ct rf ff tree r) =
  body_renderable ct rf ff tree r.
Proof.
  unfold body_renderable at 1 3.
  rewrite resolved_body_renderable, body_renderable_userData.
  unfold body_renderable.
  destruct (visible _); [destruct (resolved _ _ _ _ _)|]; done.
Qed.

Lemma body_errors_body_renderable ct rf ff tree r e :
  body_errors ct rf ff tree (body_renderable ct rf ff tree r) e =
  body_errors ct rf ff tree r e.
Proof.
  unfold body_errors. by rewrite resolved_body_renderable, body_renderable_userData.
Qed.

Lemma frame_errors_again ct rf ff tree rs e :
  foldl (λ e kr, body_errors ct rf ff tree kr.2 e) e
    (map (λ kr : string * Renderable, (kr.1, body_renderable ct rf ff tree kr.2)) rs) =
  foldl (λ e kr, body_errors ct rf ff tree kr.2 e) e rs.
Proof.
  revert e. induction rs as [|[key r] rest IH]; intros e; simpl; [done|].
  by rewrite body_errors_body_renderable, IH.
Qed.

(** C4: calling [startFrame] a second time with the same arguments, the
    transform tree being unchanged, leaves every renderable (its pose
    included) and the whole error table as the first call left them. *)
Theorem startFrame_idempotent ct rf ff w :
  let w1 := startFrame ct rf ff w in
  let w2 := startFrame ct rf ff w1 in
  transformTree w1 = transformTree w ∧
  renderables w2 = renderables w1 ∧
  map (λ kr, pose kr.2) (renderables w2) = map (λ kr, pose kr.2) (renderables w1) ∧
  errors w2 = errors w1.
Proof.
  simpl. rewrite !startFrame_eq. simpl.
  assert (Hrs : map (λ kr : string * Renderable,
                  (kr.1, body_renderable ct rf ff (transformTree w) kr.2))
             (map (λ kr : string * Renderable,
                  (kr.1, body_renderable ct rf ff (transformTree w) kr.2)) (renderables w))
           = map (λ kr : string * Renderable,
                  (kr.1, body_renderable ct rf ff (transformTree w) kr.2)) (renderables w)).
  { rewrite map_map. apply map_ext. intros [key r]. simpl.
    by rewrite body_renderable_idempotent. }
  split; [done|]. split; [done|]. split; [by rewrite Hrs|].
  rewrite frame_errors_again.
  apply (assignment_idempotent
           (λ e, foldl (λ e kr, body_errors ct rf ff (transformTree w) kr.2 e) e
                   (renderables w))).
  apply assignment_frame.
Qed.

(** C5: [startFrame] runs its loop to the end for any renderables and any
    transform tree: every renderable comes out under its key with its
    identity and user data, every visible one has been passed to the pose
    updater, one whose transform resolves has the resolved pose whatever
    happened to the others, and one whose transform is missing (or which is
    not visible) has the pose it had. *)
Theorem startFrame_missing_transform_not_fatal ct rf ff w :
  Forall2
    (λ kr kr',
       kr'.1 = kr.1 ∧ obj_id kr'.2 = obj_id kr.2 ∧ userData kr'.2 = userData kr.2 ∧
       pose kr'.2 =
         (if visible (settings (userData kr.2)) then
            match resolved ct rf ff (transformTree w) kr.2 with
            | Some p => p
            | None => pose kr.2
            end
          else pose kr.2))
    (renderables w) (renderables (startFrame ct rf ff w)) ∧
  ∃ new,
    calls (startFrame ct rf ff w) = calls w ++ new ∧
    map (λ c, c.1.1.1.1.1) (updatePose_calls new) =
      map (λ kr, obj_id kr.2)
          (filter (λ kr, visible (settings (userData kr.2)) = true) (renderables w)).
Proof.
  rewrite startFrame_eq. simpl. split.
  - apply Forall2_fmap_r, Forall_Forall2_diag, Forall_forall.
    intros [key r] _. simpl.
    rewrite body_renderable_userData, body_renderable_obj_id.
    repeat split. unfold body_renderable.
    destruct (visible _); [destruct (resolved _ _ _ _ _)|]; done.
  - eexists; split; [reflexivity|].
    rewrite updatePose_calls_frame, map_map. done.
Qed.

(** *** A turn of the loop inside the whole call *)

Lemma updated_resolved ct rf ff r w :
  updated ct rf ff r w =
    if resolved ct rf ff (transformTree w) r is Some _ then true else false.
Proof.
  unfold updated, updatePose, resolved. simpl.
  by destruct (TransformTree_apply _ _ _ _ _ _).
Qed.

Lemma loop_reaches_transformTree ct rf ff before w :
  transformTree (loop_reaches ct rf ff before w) = transformTree w.
Proof. unfold loop_reaches. by rewrite startFrame_loop_eq. Qed.

Lemma startFrame_errors_split ct rf ff before key r after w :
  renderables w = before ++ (key, r) :: after →
  errors (startFrame ct rf ff w) =
  foldl (λ e kr, body_errors ct rf ff (transformTree w) kr.2 e)
    (errors (startFrame_body ct rf ff r (loop_reaches ct rf ff before w)).2) after.
Proof.
  intros Hrs. rewrite startFrame_eq, Hrs. simpl.
  rewrite startFrame_body_eq. simpl. unfold loop_reaches.
  rewrite startFrame_loop_eq. simpl. by rewrite foldl_app.
Qed.

Lemma errorAt_body_errors_other ct rf ff tree r e q k :
  settingsPath (userData r) ≠ q →
  errorAt (body_errors ct rf ff tree r e) q k = errorAt e q k.
Proof.
  intros Hne. unfold body_errors.
  destruct (visible _); [destruct (resolved _ _ _ _ _)|];
    rewrite ?errorAt_add, ?errorAt_remove, ?errorAt_clearPath;
    by rewrite bool_decide_eq_false_2.
Qed.

Lemma hasPath_body_errors_other ct rf ff tree r e q :
  settingsPath (userData r) ≠ q →
  hasPath (body_errors ct rf ff tree r e) q = hasPath e q.
Proof.
  intros Hne. unfold body_errors.
  destruct (visible _); [destruct (resolved _ _ _ _ _)|];
    rewrite ?hasPath_add, ?hasPath_remove, ?hasPath_clearPath; try done;
    by rewrite bool_decide_eq_false_2.
Qed.

Lemma errorAt_frame_other ct rf ff tree rs e q k :
  Forall (λ kr, settingsPath (userData kr.2) ≠ q) rs →
  errorAt (foldl (λ e kr, body_errors ct rf ff tree kr.2 e) e rs) q k = errorAt e q k.
Proof.
  intros Hall. revert e. induction Hall as [|[key r] rest Hr _ IH]; intros e; simpl; [done|].
  rewrite IH. by apply errorAt_body_errors_other.
Qed.

Lemma hasPath_frame_other ct rf ff tree rs e q :
  Forall (λ kr, settingsPath (userData kr.2) ≠ q) rs →
  hasPath (foldl (λ e kr, body_errors ct rf ff tree kr.2 e) e rs) q = hasPath e q.
Proof.
  intros Hall. revert e. induction Hall as [|[key r] rest Hr _ IH]; intros e; simpl; [done|].
  rewrite IH. by apply hasPath_body_errors_other.
Qed.

Lemma LayerErrors_add_again p k m e :
  LayerErrors_add p k m (LayerErrors_add p k m e) = LayerErrors_add p k m e.
Proof. apply (assignment_idempotent (LayerErrors_add p k m)), assignment_add. Qed.

Lemma string_append_assoc (a b c : string) :
  ((a ++ b) ++ c)%string = (a ++ (b ++ c))%string.
Proof.
  induction a as [|x a IH]; [done|].
  change (String x ((a ++ b) ++ c)%string = String x (a ++ (b ++ c))%string).
  by rewrite IH.
Qed.

Lemma names_missingTransformMessage rf ff src :
  names (missingTransformMessage rf ff src) rf ∧
  names (missingTransformMessage rf ff src) ff ∧
  names (missingTransformMessage rf ff src) src.
Proof.
  unfold names, missingTransformMessage. repeat split.
  - exists ("Missing transform from frame <" ++ src ++ "> to frame <")%string,
           ("> through frame <" ++ ff ++ ">")%string.
    by rewrite !string_append_assoc.
  - exists ("Missing transform from frame <" ++ src ++ "> to frame <" ++ rf
              ++ "> through frame <")%string, ">".
    by rewrite !string_append_assoc.
  - by exists "Missing transform from frame <",
              ("> to frame <" ++ rf ++ "> through frame <" ++ ff ++ ">")%string.
Qed.

(** C1: when the loop of [startFrame] comes to a visible renderable, it
    calls the pose updater and then the error sink.  If the updater reports
    failure, the error [MISSING_TRANSFORM] is added at the renderable's
    settings path: its message, which names the render frame, the fixed
    frame and the renderable's frame, takes the place of any earlier one,
    every other error stays, and adding it once more changes nothing.  If
    the updater reports success, the error [MISSING_TRANSFORM] at that path
    is removed and every other error stays.  Either result is what the call
    ends with unless a later renderable of the loop reports at the same
    path. *)
Theorem startFrame_missing_transform_error ct rf ff w before key r after :
  renderables w = before ++ (key, r) :: after →
  visible (settings (userData r)) = true →
  let p := settingsPath (userData r) in
  let message := missingTransformMessage rf ff (frameId (userData r)) in
  let query :=
    Call_updatePose (obj_id r) rf ff (frameId (userData r)) ct (srcTimeOf ct r) in
  let w0 := loop_reaches ct rf ff before w in
  let w1 := (startFrame_body ct rf ff r w0).2 in
  (startFrame_loop ct rf ff (renderables w) w).2 = (startFrame_loop ct rf ff after w1).2 ∧
  (updated ct rf ff r w0 = false →
     calls w1 = calls w0 ++ [query; Call_errors_add p MISSING_TRANSFORM message] ∧
     errors w1 !! p = Some (<[MISSING_TRANSFORM := message]> (default ∅ (errors w0 !! p))) ∧
     errorAt (errors w1) p MISSING_TRANSFORM = Some message ∧
     (∀ q k, ¬ (q = p ∧ k = MISSING_TRANSFORM) →
             errorAt (errors w1) q k = errorAt (errors w0) q k) ∧
     LayerErrors_add p MISSING_TRANSFORM message (errors w1) = errors w1 ∧
     names message rf ∧ names message ff ∧ names message (frameId (userData r)) ∧
     (Forall (λ kr, settingsPath (userData kr.2) ≠ p) after →
      errorAt (errors (startFrame ct rf ff w)) p MISSING_TRANSFORM = Some message)) ∧
  (updated ct rf ff r w0 = true →
     calls w1 = calls w0 ++ [query; Call_errors_remove p MISSING_TRANSFORM] ∧
     errorAt (errors w1) p MISSING_TRANSFORM = None ∧
     (∀ q k, ¬ (q = p ∧ k = MISSING_TRANSFORM) →
             errorAt (errors w1) q k = errorAt (errors w0) q k) ∧
     (Forall (λ kr, settingsPath (userData kr.2) ≠ p) after →
      errorAt (errors (startFrame ct rf ff w)) p MISSING_TRANSFORM = None)).
Proof.
  intros Hrs Hvis p message query w0 w1.
  assert (Hw1 : w1 = add_calls (body_calls ct rf ff (transformTree w) r)
                  (set_errors (body_errors ct rf ff (transformTree w) r (errors w0)) w0)).
  { subst w1. rewrite startFrame_body_eq. simpl. subst w0.
    by rewrite loop_reaches_transformTree. }
  assert (Hend : ∀ k, Forall (λ kr, settingsPath (userData kr.2) ≠ p) after →
            errorAt (errors (startFrame ct rf ff w)) p k = errorAt (errors w1) p k).
  { intros k Hall. rewrite (startFrame_errors_split _ _ _ _ _ _ _ _ Hrs).
    by apply errorAt_frame_other. }
  split; [rewrite Hrs; apply loop_reaches_split|].
  rewrite updated_resolved. subst w0; rewrite loop_reaches_transformTree.
  set (w0 := loop_reaches ct rf ff before w) in *.
  rewrite Hw1 in *. clear Hw1. unfold body_calls, body_errors in *. fold p in Hend |- *.
  rewrite Hvis in *. simpl in *.
  destruct (resolved ct rf ff (transformTree w) r) as [pose'|]; split; try done; intros _.
  - split; [done|]. split.
    { rewrite errorAt_remove. by rewrite !bool_decide_eq_true_2. }
    split.
    { intros q k Hne. rewrite errorAt_remove.
      destruct (bool_decide (q = p)) eqn:Hq, (bool_decide (k = MISSING_TRANSFORM)) eqn:Hk;
        try done.
      apply bool_decide_eq_true_1 in Hq, Hk. tauto. }
    intros Hall. rewrite (Hend _ Hall), errorAt_remove.
    by rewrite !bool_decide_eq_true_2.
  - split; [done|]. split.
    { unfold LayerErrors_add. by rewrite lookup_insert_eq. }
    split.
    { rewrite errorAt_add. by rewrite !bool_decide_eq_true_2. }
    split.
    { intros q k Hne. rewrite errorAt_add.
      destruct (bool_decide (q = p)) eqn:Hq, (bool_decide (k = MISSING_TRANSFORM)) eqn:Hk;
        try done.
      apply bool_decide_eq_true_1 in Hq, Hk. tauto. }
    split; [apply LayerErrors_add_again|].
    destruct (names_missingTransformMessage rf ff (frameId (userData r))) as (? & ? & ?).
    repeat (split; [done|]).
    intros Hall. rewrite (Hend _ Hall), errorAt_add.
    by rewrite !bool_decide_eq_true_2.
Qed.

Lemma updatePose_calls_obj ct rf ff tree rs c :
  c ∈ updatePose_calls (flat_map (λ kr, body_calls ct rf ff tree kr.2) rs) →
  ∃ kr, kr ∈ rs ∧ visible (settings (userData kr.2)) = true ∧ c.1.1.1.1.1 = obj_id kr.2.
Proof.
  rewrite updatePose_calls_frame. intros Hc.
  apply list_elem_of_fmap in Hc as (kr & -> & Hkr).
  apply list_elem_of_filter in Hkr as [Hv Hkr]. by exists kr.
Qed.

(** C3: when the loop of [startFrame] comes to a renderable whose
    [settings.visible] is false, the only call it makes is [clearPath] on
    the renderable's settings path, so the pose updater and through it the
    transform tree are not queried; after that no error, [MISSING_TRANSFORM]
    included, is left at that path; and the renderable goes on, and comes
    out of [startFrame], with the pose it had.  The call as a whole makes no
    query for the renderable when it is held under this key only, and ends
    with no error at the path unless a later renderable of the loop reports
    there. *)
Theorem startFrame_invisible_renderable ct rf ff w before key r after :
  renderables w = before ++ (key, r) :: after →
  visible (settings (userData r)) = false →
  let p := settingsPath (userData r) in
  let w0 := loop_reaches ct rf ff before w in
  let r' := (startFrame_body ct rf ff r w0).1 in
  let w1 := (startFrame_body ct rf ff r w0).2 in
  (startFrame_loop ct rf ff (renderables w) w).2 = (startFrame_loop ct rf ff after w1).2 ∧
  calls w1 = calls w0 ++ [Call_errors_clearPath p] ∧
  errors w1 !! p = None ∧
  errorAt (errors w1) p MISSING_TRANSFORM = None ∧
  pose r' = pose r ∧
  renderables (startFrame ct rf ff w) !! length before = Some (key, r') ∧
  (Forall (λ kr, obj_id kr.2 ≠ obj_id r) (before ++ after) →
   ∃ new, calls (startFrame ct rf ff w) = calls w ++ new ∧
          ∀ c, c ∈ updatePose_calls new → c.1.1.1.1.1 ≠ obj_id r) ∧
  (Forall (λ kr, settingsPath (userData kr.2) ≠ p) after →
   errors (startFrame ct rf ff w) !! p = None).
Proof.
  intros Hrs Hvis p w0 r' w1.
  assert (Hbody : startFrame_body ct rf ff r w0 =
            (set_Object3D_visible false r,
             add_calls [Call_errors_clearPath p]
               (set_errors (LayerErrors_clearPath p (errors w0)) w0))).
  { rewrite startFrame_body_eq.
    unfold body_renderable, body_errors, body_calls. by rewrite Hvis. }
  subst r' w1. rewrite Hbody. simpl.
  split; [rewrite Hrs, loop_reaches_split; fold w0; by rewrite Hbody|].
  split; [done|].
  split; [apply lookup_delete_eq|].
  split; [unfold errorAt, LayerErrors_clearPath; by rewrite lookup_delete_eq|].
  split; [done|].
  split; [|split].
  - rewrite startFrame_eq. simpl. rewrite list_lookup_fmap, Hrs.
    rewrite list_lookup_middle by done. simpl.
    unfold body_renderable. by rewrite Hvis.
  - intros Hother. rewrite startFrame_eq. simpl. eexists; split; [reflexivity|].
    intros c Hc Heq. apply updatePose_calls_obj in Hc as (kr & Hkr & Hv & Hobj).
    rewrite Hrs in Hkr. apply elem_of_app in Hkr as [Hkr|Hkr].
    + rewrite Forall_app, !Forall_forall in Hother. destruct Hother as [Hb _].
      apply (Hb kr Hkr). congruence.
    + apply elem_of_cons in Hkr as [->|Hkr]; [simpl in *; congruence|].
      rewrite Forall_app, !Forall_forall in Hother. destruct Hother as [_ Ha].
      apply (Ha kr Hkr). congruence.
  - intros Hall. rewrite (startFrame_errors_split _ _ _ _ _ _ _ _ Hrs).
    fold w0. rewrite Hbody. simpl.
    pose proof (hasPath_frame_other ct rf ff (transformTree w) after
                  (LayerErrors_clearPath p (errors w0)) p Hall) as Hp.
    rewrite hasPath_clearPath, bool_decide_eq_true_2 in Hp by done.
    unfold hasPath in Hp. by destruct (foldl _ _ _ !! p).
Qed.

End FrameFacts.

Section LifecycleFacts.
Context `{host : Host} `{over : !Overrides}.

Implicit Types (w : World) (r : Renderable).
Implicit Types (rs : list (string * Renderable)) (cs : list nat).

Lemma dispose_loop_eq rs w :
  foldl (λ w kr, Renderable_dispose kr.2 w) w rs = add_calls (dispose_calls rs) w.
Proof.
  revert w. induction rs as [|[key r] rest IH]; intros w; simpl.
  - by rewrite add_calls_nil.
  - rewrite IH. unfold Renderable_dispose. apply world_eq; simpl; try done.
    by rewrite <- app_assoc.
Qed.

Lemma remove_loop_eq rs w :
  foldl (λ w kr, Object3D_remove (obj_id kr.2) (Renderable_dispose kr.2 w)) w rs =
  set_children (foldl (λ cs kr, spliceFirst (obj_id kr.2) cs) (children w) rs)
    (add_calls (dispose_calls rs) w).
Proof.
  revert w. induction rs as [|[key r] rest IH]; intros w; simpl.
  - apply world_eq; simpl; try done. by rewrite app_nil_r.
  - rewrite IH. apply world_eq; simpl; try done. by rewrite <- app_assoc.
Qed.

Lemma spliceFirst_subseteq obj cs c : c ∈ spliceFirst obj cs → c ∈ cs.
Proof.
  induction cs as [|c' rest IH]; simpl; [done|].
  destruct (decide (c' = obj)) as [->|Hne]; rewrite !elem_of_cons; [by right|].
  intros [->|Hin]; [by left|right; by apply IH].
Qed.

Lemma spliceFirst_NoDup obj cs : NoDup cs → NoDup (spliceFirst obj cs).
Proof.
  induction 1 as [|c rest Hc Hnd IH]; simpl; [constructor|].
  destruct (decide (c = obj)); [done|]. constructor; [|done].
  intros Hin. by apply Hc, (spliceFirst_subseteq obj).
Qed.

Lemma spliceFirst_gone obj cs : NoDup cs → obj ∉ spliceFirst obj cs.
Proof.
  induction 1 as [|c rest Hc Hnd IH]; simpl; [apply not_elem_of_nil|].
  destruct (decide (c = obj)) as [->|Hne]; [done|].
  rewrite elem_of_cons. by intros [->|Hin].
Qed.

Lemma spliceFirst_other obj cs c : c ≠ obj → c ∈ cs → c ∈ spliceFirst obj cs.
Proof.
  intros Hne. induction cs as [|c' rest IH]; simpl; [done|].
  destruct (decide (c' = obj)) as [->|Hne']; rewrite !elem_of_cons.
  - by intros [->|Hin].
  - intros [->|Hin]; [by left|right; by apply IH].
Qed.

Lemma remove_loop_subseteq rs cs c :
  c ∈ foldl (λ cs kr, spliceFirst (obj_id kr.2) cs) cs rs → c ∈ cs.
Proof.
  revert cs. induction rs as [|[key r] rest IH]; intros cs; simpl; [done|].
  intros Hc. by apply (spliceFirst_subseteq (obj_id r)), IH.
Qed.

Lemma remove_loop_detaches rs cs kr :
  NoDup cs → kr ∈ rs →
  obj_id kr.2 ∉ foldl (λ cs kr, spliceFirst (obj_id kr.2) cs) cs rs.
Proof.
  revert cs. induction rs as [|[key r] rest IH]; intros cs Hnd Hkr; simpl.
  - by apply elem_of_nil in Hkr.
  - apply elem_of_cons in Hkr as [->|Hkr].
    + intros Hin. apply remove_loop_subseteq in Hin.
      by apply (spliceFirst_gone (obj_id r) cs).
    + by apply IH; [apply spliceFirst_NoDup|].
Qed.

Lemma remove_loop_keeps rs cs c :
  Forall (λ kr, obj_id kr.2 ≠ c) rs → c ∈ cs →
  c ∈ foldl (λ cs kr, spliceFirst (obj_id kr.2) cs) cs rs.
Proof.
  intros Hall. revert cs.
  induction Hall as [|[key r] rest Hr _ IH]; intros cs Hc; simpl; [done|].
  apply IH, spliceFirst_other; [|done]. simpl in Hr. congruence.
Qed.

Lemma dispose_calls_not_errors rs : Forall (λ c, isErrorsCall c = false) (dispose_calls rs).
Proof. unfold dispose_calls. by apply Forall_fmap, Forall_forall. Qed.

(** C6: after [dispose], [dispose] has been called on every renderable the
    extension owned, in the order of the mapping; the mapping is empty; and
    the extension has no child left, so none of those renderables is a child
    of its scene node. *)
Theorem dispose_postcondition w :
  calls (dispose w) =
    calls w ++ map (λ kr, Call_renderable_dispose (obj_id kr.2)) (renderables w) ∧
  renderables (dispose w) = [] ∧
  children (dispose w) = [] ∧
  ∀ kr, kr ∈ renderables w → obj_id kr.2 ∉ children (dispose w).
Proof.
  unfold dispose. rewrite dispose_loop_eq. simpl.
  repeat split. intros kr _. apply not_elem_of_nil.
Qed.

(** C7: [removeAllRenderables] calls [dispose] on every owned renderable and
    removes it from the children (a child that is not one of the renderables
    stays), then empties the mapping, and only then calls
    [updateSettingsTree]: the nodes pushed to the settings sink under the
    extension's id are those that [settingsNodes] returns once the mapping
    is empty, which for the base class is the empty list. *)
Theorem removeAllRenderables_postcondition w :
  NoDup (children w) →
  ∃ cleared,
    removeAllRenderables w = updateSettingsTree cleared ∧
    renderables cleared = [] ∧
    calls cleared =
      calls w ++ map (λ kr, Call_renderable_dispose (obj_id kr.2)) (renderables w) ∧
    nodesForKey cleared = nodesForKey w ∧
    renderables (removeAllRenderables w) = [] ∧
    (∀ kr, kr ∈ renderables w → obj_id kr.2 ∉ children (removeAllRenderables w)) ∧
    (∀ c, c ∈ children w → Forall (λ kr, obj_id kr.2 ≠ c) (renderables w) →
          c ∈ children (removeAllRenderables w)) ∧
    calls (removeAllRenderables w) =
      calls cleared ++ [Call_setNodesForKey (extensionId w) (settingsNodes cleared)] ∧
    nodesForKey (removeAllRenderables w) !! extensionId w = Some (settingsNodes cleared) ∧
    SceneExtension_settingsNodes cleared = [].
Proof.
  intros Hnd. unfold removeAllRenderables. rewrite remove_loop_eq.
  eexists; split; [reflexivity|]. simpl.
  repeat split; try done.
  - intros kr Hkr. by apply remove_loop_detaches.
  - intros c Hc Hall. by apply remove_loop_keeps.
  - apply lookup_insert_eq.
Qed.

(** C10: neither [dispose] nor [removeAllRenderables] touches the error
    sink: none of the calls they make is to the error sink, and the error
    table, with every error reported earlier at a renderable's settings
    path, is afterwards exactly what it was. *)
Theorem teardown_leaves_errors w :
  errors (dispose w) = errors w ∧
  errors (removeAllRenderables w) = errors w ∧
  (∀ kr, kr ∈ renderables w →
     errorAt (errors (dispose w)) (settingsPath (userData kr.2)) MISSING_TRANSFORM =
       errorAt (errors w) (settingsPath (userData kr.2)) MISSING_TRANSFORM ∧
     errorAt (errors (removeAllRenderables w)) (settingsPath (userData kr.2))
         MISSING_TRANSFORM =
       errorAt (errors w) (settingsPath (userData kr.2)) MISSING_TRANSFORM) ∧
  (∃ new, calls (dispose w) = calls w ++ new ∧ Forall (λ c, isErrorsCall c = false) new) ∧
  (∃ new, calls (removeAllRenderables w) = calls w ++ new ∧
          Forall (λ c, isErrorsCall c = false) new).
Proof.
  unfold dispose, removeAllRenderables.
  rewrite dispose_loop_eq, remove_loop_eq. simpl.
  repeat split; try done.
  - eexists; split; [reflexivity|]. apply dispose_calls_not_errors.
  - eexists; split; [by rewrite <- app_assoc|].
    apply Forall_app; split; [apply dispose_calls_not_errors|].
    by repeat constructor.
Qed.

End LifecycleFacts.

Section ConfigFacts.

Implicit Types (props : list (string * Value)) (path : list string) (value : Value).
Implicit Types (a : option Z) (key : string).

Lemma getOwn_assignValue props key value :
  getOwn key (assignValue props key value) = Some value.
Proof.
  induction props as [|[k v] rest IH]; simpl.
  - by rewrite String.eqb_refl.
  - destruct (String.eqb k key) eqn:Hk; simpl; by rewrite Hk.
Qed.

Lemma getOwn_assignValue_ne props key key' value :
  key ≠ key' → getOwn key' (assignValue props key value) = getOwn key' props.
Proof.
  intros Hne. induction props as [|[k v] rest IH]; simpl.
  - by apply String.eqb_neq in Hne as ->.
  - destruct (String.eqb k key) eqn:Hk; simpl.
    + apply String.eqb_eq in Hk as ->. by apply String.eqb_neq in Hne as ->.
    + by rewrite IH.
Qed.

Lemma getOwn_deleteOwn props key : getOwn key (deleteOwn key props) = None.
Proof.
  induction props as [|[k v] rest IH]; simpl; [done|].
  destruct (String.eqb k key) eqn:Hk; simpl; [done|]. by rewrite Hk.
Qed.

Lemma getOwn_deleteOwn_ne props key key' :
  key ≠ key' → getOwn key' (deleteOwn key props) = getOwn key' props.
Proof.
  intros Hne. induction props as [|[k v] rest IH]; simpl; [done|].
  destruct (String.eqb k key) eqn:Hk; simpl.
  - apply String.eqb_eq in Hk as ->. by apply String.eqb_neq in Hne as ->.
  - by rewrite IH.
Qed.

Lemma assignValue_assignValue props key v1 v2 :
  assignValue (assignValue props key v1) key v2 = assignValue props key v2.
Proof.
  induction props as [|[k v] rest IH]; simpl.
  - by rewrite String.eqb_refl.
  - destruct (String.eqb k key) eqn:Hk; simpl; rewrite Hk; [done|]. by rewrite IH.
Qed.

Lemma assignValue_same props key value :
  getOwn key props = Some value → assignValue props key value = props.
Proof.
  induction props as [|[k v] rest IH]; simpl; [done|].
  destruct (String.eqb k key) eqn:Hk; [by intros [= ->]|].
  intros Hget. by rewrite IH.
Qed.

Lemma deleteOwn_absent props key : getOwn key props = None → deleteOwn key props = props.
Proof.
  induction props as [|[k v] rest IH]; simpl; [done|].
  destruct (String.eqb k key); [done|]. intros Hget. by rewrite IH.
Qed.

Lemma deleteOwn_assignValue_absent props key value :
  getOwn key props = None → deleteOwn key (assignValue props key value) = props.
Proof.
  induction props as [|[k v] rest IH]; simpl.
  - by rewrite String.eqb_refl.
  - destruct (String.eqb k key) eqn:Hk; [done|]. simpl. rewrite Hk.
    intros Hget. by rewrite IH.
Qed.

Lemma app_cons_not_nil {A} (l : list A) x l' : l ++ x :: l' ≠ [].
Proof. by destruct l. Qed.

(** *** Arrays: indices and the length *)

Lemma arrayIndex_isIndex key i : arrayIndex key = Some i → isIndex key = true.
Proof.
  unfold arrayIndex, isIndex.
  destruct (reIsUint key); [|done]. simpl.
  destruct (digitsValue 0 key <? 4294967295)%Z eqn:Hlt; [|done]. intros _.
  apply Z.ltb_lt in Hlt. apply Z.ltb_lt. unfold MAX_SAFE_INTEGER. lia.
Qed.

Lemma arrayIndex_not_length key i : arrayIndex key = Some i → key ≠ "length".
Proof. by intros Hi ->. Qed.

(** What a successful assignment is. *)
Lemma assignProperty_Some a props key value a' props' :
  assignProperty a props key value = Some (a', props') →
  props' = assignValue props key value ∧
  match a with
  | None => a' = None
  | Some length => ∃ i, arrayIndex key = Some i ∧ a' = Some (Z.max length (i + 1))
  end.
Proof.
  unfold assignProperty. destruct a as [len|].
  - destruct (arrayIndex key) as [i|]; [|done]. intros [= <- <-]. eauto.
  - by intros [= <- <-].
Qed.

Lemma getProperty_assignProperty a props key value a' props' :
  assignProperty a props key value = Some (a', props') →
  getProperty a' props' key = Some value.
Proof.
  intros Hassign. apply assignProperty_Some in Hassign as [-> Ha'].
  destruct a as [len|].
  - destruct Ha' as (i & Hi & ->). unfold getProperty. rewrite Hi.
    apply arrayIndex_not_length, String.eqb_neq in Hi as ->.
    apply getOwn_assignValue.
  - subst a'. apply getOwn_assignValue.
Qed.

Lemma getProperty_assignProperty_ne a props key key' value a' props' :
  assignProperty a props key value = Some (a', props') →
  key ≠ key' → (isIndex key = true → key' ≠ "length") →
  getProperty a' props' key' = getProperty a props key'.
Proof.
  intros Hassign Hne Hlen. apply assignProperty_Some in Hassign as [-> Ha'].
  destruct a as [len|].
  - destruct Ha' as (i & Hi & ->). unfold getProperty.
    apply arrayIndex_isIndex, Hlen, String.eqb_neq in Hi as ->.
    destruct (arrayIndex key'); [|done]. by apply getOwn_assignValue_ne.
  - subst a'. by apply getOwn_assignValue_ne.
Qed.

Lemma assignProperty_twice a props key v1 v2 a1 props1 :
  assignProperty a props key v1 = Some (a1, props1) →
  assignProperty a1 props1 key v2 = assignProperty a props key v2.
Proof.
  intros Hassign. apply assignProperty_Some in Hassign as [-> Ha1].
  destruct a as [len|].
  - destruct Ha1 as (i & Hi & ->). unfold assignProperty. rewrite Hi.
    rewrite assignValue_assignValue. do 3 f_equal. lia.
  - subst a1. simpl. by rewrite assignValue_assignValue.
Qed.

Lemma getProperty_deleteProperty a props key :
  getProperty a (deleteProperty a props key) key =
    if (if a is Some _ then true else false) && String.eqb key "length"
    then getProperty a props key else None.
Proof.
  destruct a as [len|]; simpl; [|apply getOwn_deleteOwn].
  destruct (String.eqb key "length") eqn:Hkey.
  - apply String.eqb_eq in Hkey as ->. done.
  - destruct (arrayIndex key); [apply getOwn_deleteOwn | done].
Qed.

Lemma getProperty_deleteProperty_ne a props key key' :
  key ≠ key' → getProperty a (deleteProperty a props key) key' = getProperty a props key'.
Proof.
  intros Hne. destruct a as [len|]; simpl; [|by apply getOwn_deleteOwn_ne].
  destruct (arrayIndex key); [|done].
  destruct (String.eqb key' "length"); [done|].
  destruct (arrayIndex key'); [|done]. by apply getOwn_deleteOwn_ne.
Qed.

Lemma getProperty_assignValue_ne a props key key' value :
  key ≠ key' → getProperty a (assignValue props key value) key' = getProperty a props key'.
Proof.
  intros Hne. destruct a as [len|]; simpl; [|by apply getOwn_assignValue_ne].
  destruct (String.eqb key' "length"); [done|].
  destruct (arrayIndex key'); [|done]. by apply getOwn_assignValue_ne.
Qed.

(** A property that holds an object is an entry of the list. *)
Lemma getProperty_object a props key b inner :
  getProperty a props key = Some (VObj b inner) → getOwn key props = Some (VObj b inner).
Proof.
  destruct a as [len|]; simpl; [|done].
  destruct (String.eqb key "length"); [done|]. by destruct (arrayIndex key).
Qed.

Lemma getProperty_assignValue_object a props key b inner value :
  getProperty a props key = Some (VObj b inner) →
  getProperty a (assignValue props key value) key = Some value.
Proof.
  destruct a as [len|]; simpl; [|intros _; apply getOwn_assignValue].
  destruct (String.eqb key "length"); [done|].
  destruct (arrayIndex key); [|done]. intros _. apply getOwn_assignValue.
Qed.

Lemma getProperty_absent_delete a props key :
  getProperty a props key = None → deleteProperty a props key = props.
Proof.
  destruct a as [len|]; simpl; [|apply deleteOwn_absent].
  destruct (String.eqb key "length"); [done|].
  destruct (arrayIndex key); [apply deleteOwn_absent | done].
Qed.

(** *** Following a path *)

Lemma valueIn_cons a props key rest :
  rest ≠ [] →
  valueIn a props (key :: rest) =
    match getProperty a props key with
    | Some (VObj b inner) => valueIn b inner rest
    | _ => None
    end.
Proof. by destruct rest. Qed.

Lemma valueIn_head a props a' props' key rest :
  getProperty a' props' key = getProperty a props key →
  valueIn a' props' (key :: rest) = valueIn a props (key :: rest).
Proof. intros Hget. destruct rest; simpl; by rewrite Hget. Qed.


Lemma nestedAt_Some a props key next b p :
  nestedAt a props key next = Some (b, p) →
  getProperty a props key = Some (VObj b p) ∨
  (∀ c q, getProperty a props key ≠ Some (VObj c q)) ∧ b = freshContainer next ∧ p = [].
Proof.
  unfold nestedAt.
  destruct (getProperty a props key) as [[| | | | |c q]|].
  6: { intros [= <- <-]. by left. }
  1-5: intros [= <- <-]; by right.
  destruct (_ && _); [done|]. intros [= <- <-]. by right.
Qed.


Lemma baseSet_cons a props key rest value :
  rest ≠ [] →
  baseSet a props (key :: rest) value =
    if unsafeKey key then Some (a, props)
    else
      match nestedAt a props key (default "" (head rest)) with
      | Some (b, p) =>
          match baseSet b p rest value with
          | Some (b', p') => assignProperty a props key (VObj b' p')
          | None => None
          end
      | None => None
      end.
Proof. by destruct rest. Qed.

(** What a successful [set] through a key that is not the last is: the
    nested object under the key, the one found or a fresh one, is set along
    the rest of the path and assigned under the key. *)
Lemma baseSet_cons_Some a props key rest value a' props' :
  rest ≠ [] → unsafeKey key = false →
  baseSet a props (key :: rest) value = Some (a', props') →
  ∃ b p b' p',
    nestedAt a props key (default "" (head rest)) = Some (b, p) ∧
    baseSet b p rest value = Some (b', p') ∧
    assignProperty a props key (VObj b' p') = Some (a', props').
Proof.
  intros Hrest Hkey. rewrite baseSet_cons, Hkey by done.
  destruct (nestedAt _ _ _ _) as [[b p]|]; [|done].
  destruct (baseSet b p rest value) as [[b' p']|] eqn:Hinner; [|done].
  intros Hassign. by exists b, p, b', p'.
Qed.

Lemma baseSet_unsafe a props key rest value :
  unsafeKey key = true → baseSet a props (key :: rest) value = Some (a, props).
Proof. intros Hkey. destruct rest; simpl; by rewrite Hkey. Qed.

Lemma baseSet_plain props path value a' props' :
  baseSet None props path value = Some (a', props') → a' = None.
Proof.
  destruct path as [|key rest]; [by intros [= <- <-]|].
  destruct (unsafeKey key) eqn:Hkey.
  { simpl. rewrite Hkey. by intros [= <- <-]. }
  destruct rest as [|next rest].
  - simpl. rewrite Hkey. by intros [= <- <-].
  - intros Hset. apply baseSet_cons_Some in Hset as (b & p & b' & p' & _ & _ & Hassign);
      [|done..].
    by apply assignProperty_Some in Hassign as [_ ->].
Qed.


Lemma lengthIn_cons a props key rest :
  rest ≠ [] →
  lengthIn a props (key :: rest) =
    match getProperty a props key with
    | Some (VObj b inner) => lengthIn b inner rest
    | _ => false
    end.
Proof. by destruct rest. Qed.

(** In an empty container nothing is found but the length, of an array. *)
Lemma valueIn_empty a path : lengthIn a [] path = false → valueIn a [] path = None.
Proof.
  destruct path as [|key rest]; [done|]. destruct a as [len|].
  - destruct rest as [|next rest]; simpl.
    + destruct (String.eqb key "length"); [done|]. by destruct (arrayIndex key).
    + destruct (String.eqb key "length"); [done|]. by destruct (arrayIndex key).
  - by destruct rest.
Qed.

Lemma lengthIn_empty a path : lengthIn a [] path = true → path = ["length"] ∧ is_Some a.
Proof.
  destruct path as [|key rest]; [done|]. destruct a as [len|].
  - destruct rest as [|next rest]; simpl.
    + intros Hkey. apply String.eqb_eq in Hkey as ->. by split; [|eexists].
    + destruct (String.eqb key "length"); [done|]. by destruct (arrayIndex key).
  - by destruct rest.
Qed.

(** [set] makes no array of a plain object and no plain object of an
    array. *)
Lemma baseSet_kind path a props value a' props' :
  baseSet a props path value = Some (a', props') → is_Some a' ↔ is_Some a.
Proof.
  assert (Hassign : ∀ v, assignProperty a props (default "" (head path)) v
                         = Some (a', props') → is_Some a' ↔ is_Some a).
  { intros v Hassign. apply assignProperty_Some in Hassign as [_ Ha'].
    destruct a as [len|]; [destruct Ha' as (i & _ & ->)|subst a']; split; try done;
      by eexists. }
  destruct path as [|key rest]; [by intros [= <- <-]|].
  destruct (unsafeKey key) eqn:Hkey.
  { rewrite baseSet_unsafe by done. by intros [= <- <-]. }
  destruct rest as [|next rest].
  - simpl. rewrite Hkey. apply Hassign.
  - intros Hset. apply baseSet_cons_Some in Hset as (b & p & b' & p' & _ & _ & Hset);
      [|done..].
    by apply (Hassign (VObj b' p')).
Qed.

Lemma valueIn_assignProperty_ne a props key key' rest' value a' props' :
  assignProperty a props key value = Some (a', props') →
  key ≠ key' → lengthIn a' props' (key' :: rest') = false →
  valueIn a' props' (key' :: rest') = valueIn a props (key' :: rest').
Proof.
  intros Hassign Hne Hlen. apply assignProperty_Some in Hassign as [-> Ha'].
  destruct a as [len|].
  - destruct Ha' as (i & Hi & ->).
    destruct (String.eqb key' "length") eqn:Hkey'.
    + apply String.eqb_eq in Hkey' as ->. by destruct rest'.
    + apply valueIn_head. unfold getProperty. rewrite Hkey'.
      destruct (arrayIndex key'); [|done]. by apply getOwn_assignValue_ne.
  - subst a'. apply valueIn_head. by apply getOwn_assignValue_ne.
Qed.

(** [set] leaves alone what is found at a path that parts from its path at
    some key, unless that path leads to the length of an array. *)
Lemma valueIn_baseSet_diverge common : ∀ a props k r k' r' value a' props',
  baseSet a props (common ++ k :: r) value = Some (a', props') →
  k ≠ k' → lengthIn a' props' (common ++ k' :: r') = false →
  valueIn a' props' (common ++ k' :: r') = valueIn a props (common ++ k' :: r').
Proof.
  induction common as [|x cm IH]; intros a props k r k' r' value a' props' Hset Hne Hlen;
    simpl app in *.
  - destruct (unsafeKey k) eqn:Hkey.
    { rewrite baseSet_unsafe in Hset by done. by injection Hset as <- <-. }
    destruct r as [|next r0].
    + simpl in Hset. rewrite Hkey in Hset.
      by apply (valueIn_assignProperty_ne _ _ _ _ _ _ _ _ Hset).
    + apply baseSet_cons_Some in Hset as (b & p & b' & p' & _ & _ & Hassign); [|done..].
      by apply (valueIn_assignProperty_ne _ _ _ _ _ _ _ _ Hassign).
  - destruct (unsafeKey x) eqn:Hx.
    { rewrite baseSet_unsafe in Hset by done. by injection Hset as <- <-. }
    apply baseSet_cons_Some in Hset as (b & p & b' & p' & Hnested & Hinner & Hassign);
      [|apply app_cons_not_nil|done].
    pose proof (getProperty_assignProperty _ _ _ _ _ _ Hassign) as Hget.
    rewrite lengthIn_cons, Hget in Hlen by apply app_cons_not_nil.
    rewrite (valueIn_cons a' props'), Hget by apply app_cons_not_nil.
    rewrite (IH _ _ _ _ _ r' _ _ _ Hinner Hne Hlen).
    rewrite valueIn_cons by apply app_cons_not_nil.
    apply nestedAt_Some in Hnested as [->|(Hnone & Hb & ->)]; [done|].
    rewrite valueIn_empty.
    + destruct (getProperty a props x) as [[| | | | |c q]|] eqn:Hfound; try done.
      by destruct (Hnone c q).
    + destruct (lengthIn b [] (cm ++ k' :: r')) eqn:Hempty; [|done].
      apply lengthIn_empty in Hempty as [Hpath Hb'].
      apply (baseSet_kind _ _ _ _ _ _ Hinner) in Hb'. rewrite Hpath in Hlen.
      by destruct Hb' as [len' ->].
Qed.


(** Within what is modelled, [set] gives a configuration. *)
Lemma setWithin_baseSet path : ∀ a props value,
  setWithin a props path = true → is_Some (baseSet a props path value).
Proof.
  induction path as [|key rest IH]; intros a props value Hwithin; [by eexists|].
  destruct (unsafeKey key) eqn:Hkey.
  { rewrite baseSet_unsafe by done. by eexists. }
  simpl in Hwithin. rewrite Hkey in Hwithin.
  apply andb_true_iff in Hwithin as [Hassignable Hrest].
  assert (Hassign : ∀ v, is_Some (assignProperty a props key v)).
  { intros v. unfold assignProperty, assignable in *.
    destruct a as [len|]; [|by eexists].
    destruct (arrayIndex key); [by eexists | done]. }
  destruct rest as [|next rest'].
  - simpl. rewrite Hkey. apply Hassign.
  - rewrite baseSet_cons, Hkey by done. simpl head. simpl default.
    destruct (nestedAt a props key next) as [[b p]|]; [|done].
    destruct (IH b p value Hrest) as [[b' p'] ->]. apply Hassign.
Qed.

(** Of two values set one after the other at the same path the later
    wins. *)
Lemma baseSet_baseSet path : ∀ a props v1 v2 a1 props1,
  baseSet a props path v1 = Some (a1, props1) →
  baseSet a1 props1 path v2 = baseSet a props path v2.
Proof.
  induction path as [|key rest IH]; intros a props v1 v2 a1 props1 Hset.
  { by injection Hset as <- <-. }
  destruct (unsafeKey key) eqn:Hkey.
  { rewrite baseSet_unsafe in Hset by done. by injection Hset as <- <-. }
  destruct rest as [|next rest'].
  - simpl in *. rewrite Hkey in *. by apply (assignProperty_twice _ _ _ v1).
  - apply baseSet_cons_Some in Hset as (b & p & b' & p' & Hnested & Hinner & Hassign);
      [|done..].
    rewrite !(baseSet_cons _ _ key) by done. rewrite Hkey, Hnested.
    assert (Hnested' :
      nestedAt a1 props1 key (default "" (head (next :: rest'))) = Some (b', p')).
    { unfold nestedAt. by rewrite (getProperty_assignProperty _ _ _ _ _ _ Hassign). }
    rewrite Hnested', (IH _ _ _ v2 _ _ Hinner).
    destruct (baseSet b p (next :: rest') v2) as [[b2 p2]|]; [|done].
    by apply (assignProperty_twice _ _ _ (VObj b' p')).
Qed.

(** *** [unset] *)

Lemma baseUnset_cons a props key rest :
  rest ≠ [] →
  baseUnset a props (key :: rest) =
    match getProperty a props key with
    | Some (VObj b inner) => assignValue props key (VObj b (baseUnset b inner rest))
    | _ => props
    end.
Proof. by destruct rest. Qed.


(** [unset] leaves alone what is found at a path that parts from its path
    at some key. *)
Lemma valueIn_baseUnset_diverge common : ∀ a props k r k' r',
  k ≠ k' →
  valueIn a (baseUnset a props (common ++ k :: r)) (common ++ k' :: r') =
  valueIn a props (common ++ k' :: r').
Proof.
  induction common as [|x cm IH]; intros a props k r k' r' Hne; simpl app.
  - apply valueIn_head. destruct r as [|next r0].
    + by apply getProperty_deleteProperty_ne.
    + rewrite baseUnset_cons by done.
      destruct (getProperty a props k) as [[| | | | |b inner]|]; try done.
      by apply getProperty_assignValue_ne.
  - rewrite baseUnset_cons by apply app_cons_not_nil.
    rewrite !(valueIn_cons _ _ x) by apply app_cons_not_nil.
    destruct (getProperty a props x) as [[| | | | |b inner]|] eqn:Hget;
      rewrite ?Hget; try done.
    rewrite (getProperty_assignValue_object _ _ _ _ _ _ Hget). by apply IH.
Qed.

(** [unset] of what is not there changes nothing. *)
Lemma baseUnset_absent path : ∀ a props,
  path ≠ [] → valueIn a props path = None → baseUnset a props path = props.
Proof.
  induction path as [|key rest IH]; intros a props Hne Hnone; [done|].
  destruct rest as [|next rest'].
  - simpl in *. by apply getProperty_absent_delete.
  - rewrite baseUnset_cons by done. rewrite valueIn_cons in Hnone by done.
    destruct (getProperty a props key) as [[| | | | |b inner]|] eqn:Hget; try done.
    rewrite IH by done. by apply assignValue_same, (getProperty_object a).
Qed.

(** A new key set in a plain object that is reached through plain objects,
    and unset again: the object is as it was. *)
Lemma baseSet_baseUnset_plain parent : ∀ props k value,
  plainAlong props parent = true →
  Forall (λ key, unsafeKey key = false) (parent ++ [k]) →
  valueIn None props (parent ++ [k]) = None →
  ∃ props1,
    baseSet None props (parent ++ [k]) value = Some (None, props1) ∧
    baseUnset None props1 (parent ++ [k]) = props.
Proof.
  induction parent as [|x rest IH]; intros props k value Hplain Hsafe Habsent;
    simpl app in *; apply Forall_cons in Hsafe as [Hx Hsafe].
  - simpl in *. rewrite Hx. eexists. split; [done|].
    by apply deleteOwn_assignValue_absent.
  - simpl in Hplain.
    destruct (getOwn x props) as [[| | | | |[len|] inner]|] eqn:Hget; try done.
    rewrite valueIn_cons in Habsent by apply app_cons_not_nil.
    simpl in Habsent. rewrite Hget in Habsent.
    destruct (IH inner k value Hplain Hsafe Habsent) as (inner1 & Hset & Hunset).
    exists (assignValue props x (VObj None inner1)). split.
    + rewrite baseSet_cons, Hx by apply app_cons_not_nil.
      unfold nestedAt. simpl. by rewrite Hget, Hset.
    + rewrite baseUnset_cons by apply app_cons_not_nil. simpl.
      rewrite getOwn_assignValue, Hunset, assignValue_assignValue.
      by apply assignValue_same.
Qed.

(** [unset] does not take away the objects that [set] made on the way: after
    both, an object is found where the path without its last key leads, and
    it has no property under the last key. *)
Lemma baseSet_baseUnset_container parent : ∀ a props k value a1 props1,
  parent ≠ [] → Forall (λ key, unsafeKey key = false) (parent ++ [k]) →
  baseSet a props (parent ++ [k]) value = Some (a1, props1) →
  ∃ b inner,
    valueIn a1 (baseUnset a1 props1 (parent ++ [k])) parent = Some (VObj b inner) ∧
    getProperty b inner k = None.
Proof.
  induction parent as [|x rest IH]; intros a props k value a1 props1 Hne Hsafe Hset; [done|].
  simpl app in *. apply Forall_cons in Hsafe as [Hx Hsafe].
  apply baseSet_cons_Some in Hset as (b & p & b' & p' & Hnested & Hinner & Hassign);
    [|apply app_cons_not_nil|done].
  rewrite baseUnset_cons by apply app_cons_not_nil.
  pose proof (getProperty_assignProperty _ _ _ _ _ _ Hassign) as Hget. rewrite Hget.
  destruct rest as [|y rest'].
  - simpl app in *. apply Forall_cons in Hsafe as [Hk _].
    simpl in Hinner. rewrite Hk in Hinner.
    exists b', (deleteProperty b' p' k). split.
    + simpl. by apply (getProperty_assignValue_object _ _ _ b' p').
    + rewrite getProperty_deleteProperty.
      apply assignProperty_Some in Hinner as [_ Hb'].
      destruct b as [len|]; [|by subst b'].
      destruct Hb' as (i & Hi & ->). simpl.
      by apply arrayIndex_not_length, String.eqb_neq in Hi as ->.
  - rewrite valueIn_cons by done.
    rewrite (getProperty_assignValue_object _ _ _ b' p') by done.
    by apply (IH b p k value).
Qed.

(** A value set at an index of an array, or further down from there, makes
    the length of the array the larger of what it was and the index and
    one. *)
Lemma baseSet_array_length len elems k r value a' props' i :
  unsafeKey k = false → arrayIndex k = Some i →
  baseSet (Some len) elems (k :: r) value = Some (a', props') →
  a' = Some (Z.max len (i + 1)).
Proof.
  intros Hk Hi Hset.
  assert (Hassign : ∃ v, assignProperty (Some len) elems k v = Some (a', props')).
  { destruct r as [|next r0].
    - simpl in Hset. rewrite Hk in Hset. by eexists.
    - apply baseSet_cons_Some in Hset as (b & p & b' & p' & _ & _ & Hassign); [|done..].
      by eexists. }
  destruct Hassign as [v Hassign].
  apply assignProperty_Some in Hassign as (_ & j & Hj & ->).
  rewrite Hi in Hj. by injection Hj as <-.
Qed.

Lemma valueIn_baseSet_length common : ∀ a props k r value a' props' len elems i,
  Forall (λ key, unsafeKey key = false) (common ++ [k]) →
  valueIn a props common = Some (VObj (Some len) elems) → arrayIndex k = Some i →
  baseSet a props (common ++ k :: r) value = Some (a', props') →
  valueIn a' props' (common ++ ["length"]) = Some (VNum (Z.max len (i + 1))).
Proof.
  induction common as [|x cm IH]; intros a props k r value a' props' len elems i
    Hsafe Harray Hi Hset; [done|].
  simpl app in *. apply Forall_cons in Hsafe as [Hx Hsafe].
  apply baseSet_cons_Some in Hset as (b & p & b' & p' & Hnested & Hinner & Hassign);
    [|apply app_cons_not_nil|done].
  rewrite valueIn_cons by apply app_cons_not_nil.
  rewrite (getProperty_assignProperty _ _ _ _ _ _ Hassign).
  destruct cm as [|y cm'].
  - simpl in Harray. unfold nestedAt in Hnested. rewrite Harray in Hnested.
    injection Hnested as <- <-. simpl app in *.
    apply Forall_cons in Hsafe as [Hk _].
    by rewrite (baseSet_array_length _ _ _ _ _ _ _ _ Hk Hi Hinner).
  - rewrite valueIn_cons in Harray by done. unfold nestedAt in Hnested.
    destruct (getProperty a props x) as [[| | | | |c q]|]; try done.
    injection Hnested as <- <-. by apply (IH c q k r value _ _ len elems i).
Qed.

End ConfigFacts.

Section SettingsFacts.
Context `{host : Host} `{over : !Overrides}.

Implicit Types (w : World).

(** The configuration that [saveSetting] hands to the renderer. *)
Lemma saveSetting_draft path value w :
  saveSetting path value w =
    match
      if looselyUndefined value then Some (lodash_unset (config w) path)
      else lodash_set (config w) path value
    with
    | Some draft =>
        Some (updateSettingsTree (log (Call_updateConfig draft) (set_config draft w)))
    | None => None
    end.
Proof.
  unfold saveSetting, updateConfig.
  by destruct (if looselyUndefined value then _ else _).
Qed.

Lemma lodash_set_Some props path value draft :
  lodash_set props path value = Some draft ↔ baseSet None props path value = Some (None, draft).
Proof.
  unfold lodash_set. split.
  - destruct (baseSet None props path value) as [[a' props']|] eqn:Hset; [|done].
    intros [= ->]. by apply baseSet_plain in Hset as ->.
  - by intros ->.
Qed.

Lemma setModelled_lodash_set props path value :
  setModelled props path = true → ∃ draft, lodash_set props path value = Some draft.
Proof.
  intros Hwithin. destruct (setWithin_baseSet path None props value Hwithin) as [[a' draft] Hset].
  exists draft. apply lodash_set_Some. by rewrite (baseSet_plain _ _ _ _ _ Hset) in Hset.
Qed.


Lemma frame_calls_not_setNodes ct rf ff tree (rs : list (string * Renderable)) :
  Forall (λ c, ∀ key nodes, c ≠ Call_setNodesForKey key nodes)
    (flat_map (λ kr, body_calls ct rf ff tree kr.2) rs).
Proof.
  induction rs as [|[k r] rest IH]; simpl; [constructor|].
  apply Forall_app; split; [|done]. unfold body_calls.
  destruct (visible _); [destruct (resolved _ _ _ _ _)|]; by repeat constructor.
Qed.

Lemma drain_microtasks_one w :
  microtasks w = [Microtask_updateSettingsTree] →
  drain_microtasks w = updateSettingsTree (set_microtasks [] w).
Proof. unfold drain_microtasks. by intros ->. Qed.

Lemma drain_microtasks_none w : microtasks w = [] → drain_microtasks w = w.
Proof.
  unfold drain_microtasks. intros Hq. rewrite Hq. simpl.
  apply world_eq; simpl; done.
Qed.

(** C9: the constructor does not refresh the settings tree itself: it makes
    no call and leaves the settings sink as it was, only queueing the
    refresh, at a time when the members of the derived class are not yet
    assigned.  The queued refresh runs when the constructing task has
    completed: [settingsNodes] is then evaluated on the extension with its
    members assigned, and its result is pushed under the extension's id.
    No refresh is pending any more, and a frame update that runs as a later
    task, whatever became of the renderables and of the renderer in between,
    comes after it: all that [startFrame] calls is logged after the push,
    and none of it goes to the settings sink. *)
Theorem constructor_defers_refresh id w ct rf ff :
  microtasks w = [] →
  let built := constructor id w in
  let initialised := set_microtasks [] (construct_derived id w) in
  let w1 := run_task (Task_construct id) w in
  calls built = calls w ∧
  nodesForKey built = nodesForKey w ∧
  microtasks built = [Microtask_updateSettingsTree] ∧
  membersAssigned built = false ∧
  membersAssigned initialised = true ∧
  w1 = updateSettingsTree initialised ∧
  calls w1 = calls w ++ [Call_setNodesForKey id (settingsNodes initialised)] ∧
  nodesForKey w1 !! id = Some (settingsNodes initialised) ∧
  microtasks w1 = [] ∧
  ∀ later, calls later = calls w1 → microtasks later = microtasks w1 →
    ∃ frame,
      calls (run_task (Task_startFrame ct rf ff) later) =
        calls w ++ [Call_setNodesForKey id (settingsNodes initialised)] ++ frame ∧
      Forall (λ c, ∀ key nodes, c ≠ Call_setNodesForKey key nodes) frame.
Proof.
  intros Hq. simpl.
  assert (Hw1 : run_task (Task_construct id) w =
                updateSettingsTree (set_microtasks [] (construct_derived id w))).
  { unfold run_task. apply drain_microtasks_one.
    unfold construct_derived, constructor, queueMicrotask. simpl. by rewrite Hq. }
  rewrite Hq. repeat (split; [done|]). rewrite Hw1.
  repeat (split; [done|]).
  split; [apply lookup_insert_eq|]. split; [done|].
  intros later Hcalls Hlater. simpl in Hcalls, Hlater.
  unfold run_task. rewrite drain_microtasks_none by (by rewrite startFrame_eq).
  rewrite startFrame_eq. simpl. rewrite Hcalls.
  eexists. split; [by rewrite <- app_assoc|]. apply frame_calls_not_setNodes.
Qed.

End SettingsFacts.

(** * The scenarios of the specification, and the theorems at work on them *)

Section ScenarioFacts.
Import Scenario.
#[local] Existing Instance host.
#[local] Existing Instance derived.

(** Adding the same error kind at the same path with another message
    leaves one error of that kind there, with the later message. *)
Lemma LayerErrors_add_replaces (p : Path) (k m1 m2 : string)
    (e : gmap Path (gmap string string)) :
  LayerErrors_add p k m2 (LayerErrors_add p k m1 e) = LayerErrors_add p k m2 e.
Proof.
  unfold LayerErrors_add. rewrite lookup_insert_eq. simpl.
  by rewrite !insert_insert_eq.
Qed.

(** The renderable in frame [lidar], frame-locked and visible, with render
    frame [base_link] and fixed frame [map], while the tree has no [lidar]:
    the pose is unchanged and the error sink receives the addition. *)
Example scenario_missing_transform :
  let w' := startFrame 1000 "base_link" "map" world in
  map (λ kr : string * Renderable, pose kr.2) (renderables w') = [0; 7; -3]%Z ∧
  take 2 (calls w') =
    [ Call_updatePose 1 "base_link" "map" "lidar" 1000 1000;
      Call_errors_add ["topics"; "/lidar"] MISSING_TRANSFORM
        "Missing transform from frame <lidar> to frame <base_link> through frame <map>" ].
Proof. by vm_compute. Qed.

(** The same renderable once the tree has a path for [lidar]: the pose is
    the resolved one and the error sink receives the removal. *)
Example scenario_transform_resolved :
  let w' := startFrame 2000 "base_link" "map" world_with_lidar in
  map (λ kr : string * Renderable, pose kr.2) (renderables w') = [7; 7; -3]%Z ∧
  take 2 (calls w') =
    [ Call_updatePose 1 "base_link" "map" "lidar" 2000 2000;
      Call_errors_remove ["topics"; "/lidar"] MISSING_TRANSFORM ].
Proof. by vm_compute. Qed.

(** [saveSetting(["visible"], false)] then [saveSetting(["visible"],
    undefined)]: the key is absent from the final configuration. *)
Example scenario_unset :
  config <$> saveSetting ["visible"] (VBool false) world =
    Some [("followTf", VStr "base_link"); ("visible", VBool false)] ∧
  config <$> (saveSetting ["visible"] (VBool false) world
              ≫= saveSetting ["visible"] VUndefined) =
    Some [("followTf", VStr "base_link")].
Proof. by vm_compute. Qed.

(** [set] writes nothing for an empty path or through an unsafe key. *)
Example scenario_set_refused :
  config <$> saveSetting [] (VBool true) world = Some (config world) ∧
  config <$> saveSetting ["__proto__"] (VBool true) world = Some (config world).
Proof. by vm_compute. Qed.

(** The target offset of the camera, an array of three numbers: a value
    saved at index 5 makes the length 6; unsetting it leaves a hole and the
    length at 6; saving the length itself is not modelled. *)
Example scenario_array :
  (λ w', valueAt (config w') ["cameraState"; "targetOffset"])
    <$> saveSetting ["cameraState"; "targetOffset"; "5"] (VNum 1) world_with_camera =
    Some (Some (VObj (Some 6%Z)
                  [("0", VNum 0); ("1", VNum 0); ("2", VNum 0); ("5", VNum 1)])) ∧
  (λ w', valueAt (config w') ["cameraState"; "targetOffset"])
    <$> (saveSetting ["cameraState"; "targetOffset"; "5"] (VNum 1) world_with_camera
         ≫= saveSetting ["cameraState"; "targetOffset"; "5"] VNull) =
    Some (Some (VObj (Some 6%Z) [("0", VNum 0); ("1", VNum 0); ("2", VNum 0)])) ∧
  saveSetting ["cameraState"; "targetOffset"; "length"] (VNum 0) world_with_camera = None.
Proof. by vm_compute. Qed.


(** The first theorem on the renderable [lidar] of the scenario, whose
    transform is missing. *)
Lemma startFrame_missing_transform_error_witness :
  renderables world = [] ++ ("/lidar", lidar) :: [("/camera", hidden); ("/odom", pinned)] ∧
  visible (settings (userData lidar)) = true ∧
  updated 1000 "base_link" "map" lidar (loop_reaches 1000 "base_link" "map" [] world) = false ∧
  errorAt (errors (startFrame 1000 "base_link" "map" world)) ["topics"; "/lidar"]
    MISSING_TRANSFORM =
  Some "Missing transform from frame <lidar> to frame <base_link> through frame <map>".
Proof.
  split; [reflexivity|]. split; [reflexivity|]. split; [reflexivity|].
  destruct (startFrame_missing_transform_error 1000 "base_link" "map" world
              [] "/lidar" lidar [("/camera", hidden); ("/odom", pinned)]
              eq_refl eq_refl) as (_ & Hfail & _).
  destruct (Hfail eq_refl) as (_ & _ & _ & _ & _ & _ & _ & _ & Hend).
  apply Hend. repeat constructor; discriminate.
Defined.

(** The renderable [hidden] of the scenario: the stale error at its path is
    gone after the frame. *)
Lemma startFrame_invisible_renderable_witness :
  renderables world = [("/lidar", lidar)] ++ ("/camera", hidden) :: [("/odom", pinned)] ∧
  visible (settings (userData hidden)) = false ∧
  errorAt (errors world) ["topics"; "/camera"] MISSING_TRANSFORM = Some "stale" ∧
  errors (startFrame 1000 "base_link" "map" world) !! ["topics"; "/camera"] = None.
Proof.
  split; [reflexivity|]. split; [reflexivity|]. split; [by vm_compute|].
  destruct (startFrame_invisible_renderable 1000 "base_link" "map" world
              [("/lidar", lidar)] "/camera" hidden [("/odom", pinned)]
              eq_refl eq_refl) as (_ & _ & _ & _ & _ & _ & _ & Hend).
  apply Hend. repeat constructor; discriminate.
Defined.

(** The scenario's extension after [removeAllRenderables]. *)
Lemma removeAllRenderables_postcondition_witness :
  NoDup (children world) ∧
  renderables (removeAllRenderables world) = [] ∧
  ∀ kr, kr ∈ renderables world → obj_id kr.2 ∉ children (removeAllRenderables world).
Proof.
  assert (Hnd : NoDup (children world)) by (by apply (bool_decide_unpack _); vm_compute).
  split; [exact Hnd|].
  destruct (removeAllRenderables_postcondition world Hnd)
    as (cleared & _ & _ & _ & _ & Hempty & Hdetached & _).
  split; [exact Hempty | exact Hdetached].
Defined.


(** Constructing a derived extension against the scenario's renderer: the
    constructor calls nothing, and the task ends with the push of the node
    that needs the derived members. *)
Lemma constructor_defers_refresh_witness :
  microtasks world = [] ∧
  calls (constructor "foxglove.Markers" world) = [] ∧
  calls (run_task (Task_construct "foxglove.Markers") world) =
    [ Call_setNodesForKey "foxglove.Markers"
        [ @Build_SettingsTreeEntry host ["layers"] "foxglove.Markers" ] ].
Proof.
  split; [reflexivity|].
  destruct (constructor_defers_refresh "foxglove.Markers" world 1000 "base_link" "map"
              eq_refl) as (Hbuilt & _ & _ & _ & _ & _ & Hcalls & _).
  split; [exact Hbuilt | exact Hcalls].
Defined.

End ScenarioFacts.

(** * Further properties of the frame update and of teardown *)

Section MoreFrameFacts.
Context `{host : Host}.

Implicit Types (w : World) (r : Renderable).
Implicit Types (rs : list (string * Renderable)) (cs : list Call).

Lemma body_calls_errors_call ct rf ff tree r :
  filter (λ c, isErrorsCall c = true) (body_calls ct rf ff tree r) =
    [ if visible (settings (userData r)) then
        match resolved ct rf ff tree r with
        | Some _ => Call_errors_remove (settingsPath (userData r)) MISSING_TRANSFORM
        | None =>
            Call_errors_add (settingsPath (userData r)) MISSING_TRANSFORM
              (missingTransformMessage rf ff (frameId (userData r)))
        end
      else Call_errors_clearPath (settingsPath (userData r)) ].
Proof.
  unfold body_calls. destruct (visible _); [destruct (resolved _ _ _ _ _)|]; done.
Qed.

Lemma body_calls_kinds ct rf ff tree r :
  Forall (λ c, isErrorsCall c = true ∨ ∃ obj src st, c = Call_updatePose obj rf ff src ct st)
    (body_calls ct rf ff tree r).
Proof.
  unfold body_calls. destruct (visible _); [destruct (resolved _ _ _ _ _)|];
    repeat (apply Forall_cons; split); try apply Forall_nil; eauto 6.
Qed.

(** X1: [startFrame] changes nothing but the renderables and the error
    table: the identity of the extension, its children, the transform tree,
    the settings sink, the configuration and the queue of deferred
    callbacks are as before, and the map has the same keys in the same
    order. *)
Theorem startFrame_keeps_the_rest ct rf ff w :
  let w' := startFrame ct rf ff w in
  extensionId w' = extensionId w ∧ name w' = name w ∧
  children w' = children w ∧ membersAssigned w' = membersAssigned w ∧
  transformTree w' = transformTree w ∧ nodesForKey w' = nodesForKey w ∧
  config w' = config w ∧ microtasks w' = microtasks w ∧
  map fst (renderables w') = map fst (renderables w).
Proof.
  simpl. rewrite startFrame_eq. simpl. repeat split. by rewrite map_map.
Qed.

(** X2: every call that [startFrame] makes is a pose update for the given
    render and fixed frame at the current time, or a call of the error sink;
    and the error sink is called once for each renderable, in the order of
    the map, at that renderable's settings path: [clearPath] for one that is
    not visible, [remove] or [add] of [MISSING_TRANSFORM] for one that
    is. *)
Theorem startFrame_call_discipline ct rf ff w :
  ∃ new,
    calls (startFrame ct rf ff w) = calls w ++ new ∧
    Forall (λ c, isErrorsCall c = true ∨
                 ∃ obj src st, c = Call_updatePose obj rf ff src ct st) new ∧
    Forall2
      (λ kr c,
         let p := settingsPath (userData kr.2) in
         if visible (settings (userData kr.2)) then
           c = Call_errors_remove p MISSING_TRANSFORM ∨
           c = Call_errors_add p MISSING_TRANSFORM
                 (missingTransformMessage rf ff (frameId (userData kr.2)))
         else c = Call_errors_clearPath p)
      (renderables w) (filter (λ c, isErrorsCall c = true) new).
Proof.
  rewrite startFrame_eq. simpl. eexists; split; [reflexivity|].
  generalize (transformTree w). intros tree.
  induction (renderables w) as [|[key r] rest [IH1 IH2]]; simpl.
  - split; constructor.
  - split.
    + apply Forall_app; split; [apply body_calls_kinds | apply IH1].
    + rewrite filter_app, body_calls_errors_call. simpl. constructor; [|apply IH2].
      simpl. destruct (visible _); [destruct (resolved _ _ _ _ _)|]; auto.
Qed.

(** X3: a renderable whose [settings.visible] is false comes out of
    [startFrame] with the [visible] flag of its object off, whatever the
    flag was. *)
Theorem startFrame_hides_invisible ct rf ff w :
  Forall2
    (λ kr kr', visible (settings (userData kr.2)) = false →
               Object3D_visible kr'.2 = false)
    (renderables w) (renderables (startFrame ct rf ff w)).
Proof.
  rewrite startFrame_eq. simpl.
  apply Forall2_fmap_r, Forall_Forall2_diag, Forall_forall.
  intros [key r] _ Hv. simpl in *. unfold body_renderable. by rewrite Hv.
Qed.

(** X4: after [dispose], a second [dispose] and a frame update both leave
    the world exactly as it is: no call is made and nothing changes. *)
Theorem dispose_then_nothing ct rf ff w :
  dispose (dispose w) = dispose w ∧
  startFrame ct rf ff (dispose w) = dispose w.
Proof.
  split.
  - unfold dispose. rewrite !dispose_loop_eq. simpl.
    apply world_eq; simpl; try done. by rewrite app_nil_r.
  - rewrite startFrame_eq. unfold dispose. rewrite dispose_loop_eq. simpl.
    apply world_eq; simpl; try done. by rewrite app_nil_r.
Qed.

(** X6: after [startFrame], at the settings path of a renderable that no
    later renderable of the map shares, [MISSING_TRANSFORM] is reported, with
    the message for this frame, exactly when the renderable is visible and
    its transform is missing, whatever was reported there before. *)
Theorem startFrame_reports_iff_missing ct rf ff w before key r after :
  renderables w = before ++ (key, r) :: after →
  Forall (λ kr, settingsPath (userData kr.2) ≠ settingsPath (userData r)) after →
  errorAt (errors (startFrame ct rf ff w)) (settingsPath (userData r)) MISSING_TRANSFORM =
    if visible (settings (userData r)) then
      match resolved ct rf ff (transformTree w) r with
      | Some _ => None
      | None => Some (missingTransformMessage rf ff (frameId (userData r)))
      end
    else None.
Proof.
  intros Hrs Hall.
  rewrite (startFrame_errors_split _ _ _ _ _ _ _ _ Hrs), errorAt_frame_other by done.
  rewrite startFrame_body_eq, loop_reaches_transformTree. simpl.
  unfold body_errors. destruct (visible _); [destruct (resolved _ _ _ _ _)|].
  - rewrite errorAt_remove. by rewrite !bool_decide_eq_true_2.
  - rewrite errorAt_add. by rewrite !bool_decide_eq_true_2.
  - rewrite errorAt_clearPath. by rewrite bool_decide_eq_true_2.
Qed.

End MoreFrameFacts.

Section MoreLifecycleFacts.
Context `{host : Host} `{over : !Overrides}.

Implicit Types (w : World).

(** X5: after [removeAllRenderables], a frame update leaves the world
    exactly as it is, and a second [removeAllRenderables] does nothing but
    push the settings nodes again. *)
Theorem removeAllRenderables_then ct rf ff w :
  startFrame ct rf ff (removeAllRenderables w) = removeAllRenderables w ∧
  removeAllRenderables (removeAllRenderables w) =
    updateSettingsTree (removeAllRenderables w).
Proof.
  split.
  - rewrite startFrame_eq. unfold removeAllRenderables. rewrite remove_loop_eq. simpl.
    apply world_eq; simpl; try done. by rewrite app_nil_r.
  - unfold removeAllRenderables at 1. rewrite remove_loop_eq.
    assert (Hrs : renderables (removeAllRenderables w) = []).
    { unfold removeAllRenderables. by rewrite remove_loop_eq. }
    rewrite Hrs. simpl. f_equal.
    apply world_eq; simpl; try done. by rewrite app_nil_r.
Qed.

End MoreLifecycleFacts.

(** * Further properties of [saveSetting] *)

Section MoreSettingsFacts.
Context `{host : Host} `{over : !Overrides}.

Implicit Types (w : World) (path : Path) (value : Value).

Lemma saveSetting_unset_Some path value w :
  looselyUndefined value = true →
  ∃ w', saveSetting path value w = Some w' ∧ config w' = lodash_unset (config w) path.
Proof. intros Hv. rewrite saveSetting_draft, Hv. by eexists. Qed.

Lemma saveSetting_set_Some path value w draft :
  looselyUndefined value = false → lodash_set (config w) path value = Some draft →
  ∃ w', saveSetting path value w = Some w' ∧ config w' = draft.
Proof. intros Hv Hset. rewrite saveSetting_draft, Hv, Hset. by eexists. Qed.

(** X7: of two values saved one after the other at the same path, neither
    [undefined] nor [null], the later wins: where [set] stays within what
    is modelled, all three calls return and the configuration after both is
    the one that saving the later value alone gives. *)
Theorem saveSetting_last_write_wins path v1 v2 w :
  looselyUndefined v1 = false → looselyUndefined v2 = false →
  setModelled (config w) path = true →
  ∃ w1 w2 w2',
    saveSetting path v1 w = Some w1 ∧
    saveSetting path v2 w1 = Some w2 ∧
    saveSetting path v2 w = Some w2' ∧
    config w2 = config w2'.
Proof.
  intros H1 H2 Hmodelled.
  destruct (setModelled_lodash_set _ _ v1 Hmodelled) as [draft1 Hset1].
  destruct (setModelled_lodash_set _ _ v2 Hmodelled) as [draft2 Hset2].
  destruct (saveSetting_set_Some _ _ _ _ H1 Hset1) as (w1 & Hw1 & Hc1).
  destruct (saveSetting_set_Some _ _ _ _ H2 Hset2) as (w2' & Hw2' & Hc2').
  assert (Hagain : lodash_set (config w1) path v2 = Some draft2).
  { rewrite Hc1. apply lodash_set_Some. apply lodash_set_Some in Hset1, Hset2.
    by rewrite (baseSet_baseSet _ _ _ _ v2 _ _ Hset1). }
  destruct (saveSetting_set_Some _ _ _ _ H2 Hagain) as (w2 & Hw2 & Hc2).
  exists w1, w2, w2'. repeat split; try done. by rewrite Hc2, Hc2'.
Qed.

(** X8: saving or unsetting a setting leaves alone what is found at any
    path that parts from the saved path at some key, with one exception,
    the length of an array: a value saved at an index of an array, or
    further down from there, makes the [length] of the array the larger of
    the old length and the index plus one.  Unsetting changes no length. *)
Theorem saveSetting_keeps_other_paths common k r k' r' value w :
  k ≠ k' →
  (looselyUndefined value = false → setModelled (config w) (common ++ k :: r) = true) →
  ∃ w',
    saveSetting (common ++ k :: r) value w = Some w' ∧
    ((looselyUndefined value = false →
      isArrayLength (config w') (common ++ k' :: r') = false) →
     valueAt (config w') (common ++ k' :: r') = valueAt (config w) (common ++ k' :: r')) ∧
    (∀ len elems i,
       looselyUndefined value = false →
       Forall (λ key, unsafeKey key = false) (common ++ [k]) →
       valueAt (config w) common = Some (VObj (Some len) elems) → arrayIndex k = Some i →
       valueAt (config w') (common ++ ["length"]) = Some (VNum (Z.max len (i + 1)))).
Proof.
  intros Hne Hmodelled. destruct (looselyUndefined value) eqn:Hv.
  - destruct (saveSetting_unset_Some (common ++ k :: r) value w Hv) as (w' & Hw' & Hc).
    exists w'. split; [done|]. split; [|done]. intros _. rewrite Hc.
    by apply valueIn_baseUnset_diverge.
  - destruct (setModelled_lodash_set _ _ value (Hmodelled eq_refl)) as [draft Hset].
    destruct (saveSetting_set_Some _ _ _ _ Hv Hset) as (w' & Hw' & Hc).
    exists w'. split; [done|]. rewrite Hc. apply lodash_set_Some in Hset. split.
    + intros Hlen. apply (valueIn_baseSet_diverge _ _ _ _ _ _ _ _ _ _ Hset Hne).
      by apply Hlen.
    + intros len elems i _ Hsafe Harray Hi.
      by apply (valueIn_baseSet_length _ _ _ _ _ _ _ _ _ elems _ Hsafe Harray Hi Hset).
Qed.

(** X9: unsetting a setting that is not there leaves the configuration as it
    is. *)
Theorem saveSetting_unset_absent path value w :
  looselyUndefined value = true → path ≠ [] → valueAt (config w) path = None →
  config <$> saveSetting path value w = Some (config w).
Proof.
  intros Hv Hne Habsent.
  destruct (saveSetting_unset_Some path value w Hv) as (w' & -> & Hc). simpl.
  rewrite Hc. f_equal. by apply baseUnset_absent.
Qed.

(** X10: saving a value under a new key of a plain object that exists (the
    configuration itself, or a plain object reached from it through plain
    objects) and unsetting it again gives back the configuration exactly.
    The keys are free of those that [set] refuses. *)
Theorem saveSetting_set_unset_restores parent k value w :
  looselyUndefined value = false →
  Forall (λ key, unsafeKey key = false) (parent ++ [k]) →
  plainAlong (config w) parent = true →
  valueAt (config w) (parent ++ [k]) = None →
  ∃ w1 w2,
    saveSetting (parent ++ [k]) value w = Some w1 ∧
    saveSetting (parent ++ [k]) VUndefined w1 = Some w2 ∧
    config w2 = config w.
Proof.
  intros Hv Hsafe Hplain Habsent.
  destruct (baseSet_baseUnset_plain parent (config w) k value Hplain Hsafe Habsent)
    as (draft & Hset & Hunset).
  apply lodash_set_Some in Hset.
  destruct (saveSetting_set_Some _ _ _ _ Hv Hset) as (w1 & Hw1 & Hc1).
  destruct (saveSetting_unset_Some (parent ++ [k]) VUndefined w1 eq_refl) as (w2 & Hw2 & Hc2).
  exists w1, w2. repeat split; try done. by rewrite Hc2, Hc1.
Qed.

(** X11: unsetting does not take away the containers that saving made: after
    a value is saved at a path of several keys, none of which [set] refuses,
    and unset again, an object or array is found at the parent path, without
    a property under the last key, whether or not anything was there
    before.  [set] is taken to stay within what is modelled. *)
Theorem saveSetting_set_unset_leaves_container parent k value w :
  looselyUndefined value = false →
  parent ≠ [] → Forall (λ key, unsafeKey key = false) (parent ++ [k]) →
  setModelled (config w) (parent ++ [k]) = true →
  ∃ w1 w2 a inner,
    saveSetting (parent ++ [k]) value w = Some w1 ∧
    saveSetting (parent ++ [k]) VUndefined w1 = Some w2 ∧
    valueAt (config w2) parent = Some (VObj a inner) ∧
    getProperty a inner k = None.
Proof.
  intros Hv Hne Hsafe Hmodelled.
  destruct (setModelled_lodash_set _ _ value Hmodelled) as [draft Hset].
  destruct (saveSetting_set_Some _ _ _ _ Hv Hset) as (w1 & Hw1 & Hc1).
  destruct (saveSetting_unset_Some (parent ++ [k]) VUndefined w1 eq_refl) as (w2 & Hw2 & Hc2).
  apply lodash_set_Some in Hset.
  destruct (baseSet_baseUnset_container parent _ _ k value _ _ Hne Hsafe Hset)
    as (a & inner & Hfound & Hk).
  exists w1, w2, a, inner. repeat split; try done. by rewrite Hc2, Hc1.
Qed.

End MoreSettingsFacts.

(** * The list of running instances of the start screen *)

Section StartFacts.
Import Start.

Implicit Types (st : Sidebar) (instance : ArenaIntance) (srcs : list DataSource).

Lemma sextet_inj x5 x4 x3 x2 x1 x0 y5 y4 y3 y2 y1 y0 :
  sextet x5 x4 x3 x2 x1 x0 = sextet y5 y4 y3 y2 y1 y0 →
  (x5, x4, x3, x2, x1, x0) = (y5, y4, y3, y2, y1, y0).
Proof.
  destruct x5, x4, x3, x2, x1, x0, y5, y4, y3, y2, y1, y0;
    intros Heq; try reflexivity; by vm_compute in Heq.
Qed.

Lemma sextet_not_pad x5 x4 x3 x2 x1 x0 : sextet x5 x4 x3 x2 x1 x0 ≠ "="%char.
Proof. by destruct x5, x4, x3, x2, x1, x0; vm_compute. Qed.

Lemma btoa_empty s : btoa s = "" → s = "".
Proof. by destruct s as [|[] [|[] [|[] rest]]]. Qed.

Ltac sextets :=
  repeat match goal with
  | Heq : String _ _ = String _ _ |- _ => injection Heq; clear Heq; intros
  | Heq : String _ _ = EmptyString |- _ => discriminate Heq
  | Heq : EmptyString = String _ _ |- _ => discriminate Heq
  | Heq : sextet _ _ _ _ _ _ = "="%char |- _ => by destruct (sextet_not_pad _ _ _ _ _ _ Heq)
  | Heq : "="%char = sextet _ _ _ _ _ _ |- _ =>
      symmetry in Heq; by destruct (sextet_not_pad _ _ _ _ _ _ Heq)
  | Heq : sextet _ _ _ _ _ _ = sextet _ _ _ _ _ _ |- _ =>
      apply sextet_inj in Heq; injection Heq; clear Heq; intros; subst
  end.

Lemma btoa_inj_length n : ∀ s t, (String.length s ≤ n)%nat → btoa s = btoa t → s = t.
Proof.
  induction n as [|n IH]; intros s t Hlen Heq.
  - destruct s; [|simpl in Hlen; lia]. symmetry. by apply btoa_empty.
  - destruct s as [|[a0 a1 a2 a3 a4 a5 a6 a7] [|[b0 b1 b2 b3 b4 b5 b6 b7]
                    [|[c0 c1 c2 c3 c4 c5 c6 c7] s']]];
      destruct t as [|[a0' a1' a2' a3' a4' a5' a6' a7'] [|[b0' b1' b2' b3' b4' b5' b6' b7']
                    [|[c0' c1' c2' c3' c4' c5' c6' c7'] t']]];
      simpl in Heq; sextets; try done.
    do 3 f_equal. apply IH; [simpl in Hlen; lia|done].
Qed.

Lemma btoa_inj s t : btoa s = btoa t → s = t.
Proof. by apply (btoa_inj_length (String.length s)). Qed.

Lemma truthy_btoa s : truthy (Some (btoa s)) = negb (String.eqb s "").
Proof.
  unfold truthy. destruct (String.eqb_spec s "") as [->|Hne]; [done|].
  destruct (String.eqb_spec (btoa s) "") as [Hempty|]; [|done].
  by apply btoa_empty in Hempty.
Qed.

Lemma removeNonAlnum_filter s :
  list_ascii_of_string (removeNonAlnum s) =
  filter (λ c, isAlnum c = true) (list_ascii_of_string s).
Proof.
  induction s as [|c rest IH]; [done|]. simpl. rewrite filter_cons.
  destruct (isAlnum c) eqn:Hc; simpl; by rewrite IH.
Qed.

Lemma find_none_Forall srcs :
  Forall (λ source, ¬ (type source = "connection" ∧ id source = "foxglove-websocket")) srcs →
  find (λ source, String.eqb (type source) "connection"
                  && String.eqb (id source) "foxglove-websocket") srcs = None.
Proof.
  induction 1 as [|source rest Hsource _ IH]; [done|]. simpl.
  destruct (String.eqb_spec (type source) "connection"),
           (String.eqb_spec (id source) "foxglove-websocket"); simpl; tauto.
Qed.

Lemma find_some_Exists srcs :
  Exists (λ source, type source = "connection" ∧ id source = "foxglove-websocket") srcs →
  ∃ source, find (λ source, String.eqb (type source) "connection"
                            && String.eqb (id source) "foxglove-websocket") srcs
              = Some source ∧
            id source = "foxglove-websocket".
Proof.
  induction 1 as [source rest [Ht Hi]|source rest _ IH]; simpl.
  - rewrite Ht, Hi. simpl. by exists source.
  - destruct (String.eqb_spec (type source) "connection"),
             (String.eqb_spec (id source) "foxglove-websocket"); simpl; eauto.
Qed.

Lemma performed_foldl st (effects : list Effect) :
  performed (foldl perform st effects) = performed st ++ effects.
Proof.
  revert st. induction effects as [|e rest IH]; intros st; simpl.
  - by rewrite app_nil_r.
  - rewrite IH. simpl. by rewrite <- app_assoc.
Qed.

(** X12: when no instance is loading, [importRobotAndConnect] marks the
    instance as loading and asks for one layout, at the host origin under
    [/foxglove-assets/robot/], in a folder named by the letters and digits of
    the robot's name, in their order and nothing else: no slash and no dot
    of the name gets into the address. *)
Theorem importRobotAndConnect_layout_url origin ancestorOrigins loading instance :
  truthy loading = false →
  ∃ folder,
    importRobotAndConnect origin ancestorOrigins loading instance =
      [ setLoadingInstance (Some (btoa (name instance)));
        importFromURL
          (getHostOrigin origin ancestorOrigins ++ "/foxglove-assets/robot/" ++ folder
             ++ "/layout.json")%string instance ] ∧
    list_ascii_of_string folder =
      filter (λ c, isAlnum c = true) (list_ascii_of_string (robot instance)) ∧
    Forall (λ c, isAlnum c = true ∧ c ≠ "/"%char ∧ c ≠ "."%char)
      (list_ascii_of_string folder).
Proof.
  intros Hidle. exists (removeNonAlnum (robot instance)).
  unfold importRobotAndConnect. rewrite Hidle.
  split; [done|]. split; [apply removeNonAlnum_filter|].
  rewrite removeNonAlnum_filter. apply Forall_forall. intros c Hc.
  apply list_elem_of_filter in Hc as [Hc _]. split; [done|].
  split; intros ->; discriminate Hc.
Qed.

(** X13: a click marks its instance as loading, and while that holds every
    further click is ignored; the mark counts only if the name of the
    instance is not empty, and after a click on an instance without a name a
    further click starts another import. *)
Theorem click_guard origin ancestorOrigins srcs st instance other :
  truthy (loadingInstance st) = false →
  let st1 := handle origin ancestorOrigins srcs st (Click instance) in
  loadingInstance st1 = Some (btoa (name instance)) ∧
  truthy (loadingInstance st1) = negb (String.eqb (name instance) "") ∧
  (name instance ≠ "" → handle origin ancestorOrigins srcs st1 (Click other) = st1) ∧
  (name instance = "" →
   performed (handle origin ancestorOrigins srcs st1 (Click other)) =
     performed st1 ++ importRobotAndConnect origin ancestorOrigins None other).
Proof.
  intros Hidle. simpl.
  assert (Hst1 : loadingInstance (handle origin ancestorOrigins srcs st (Click instance))
                 = Some (btoa (name instance))).
  { unfold handle, importRobotAndConnect. by rewrite Hidle. }
  split; [done|]. rewrite Hst1, truthy_btoa. split; [done|]. split.
  - intros Hne. unfold handle at 1. rewrite Hst1. unfold importRobotAndConnect.
    rewrite truthy_btoa. by apply String.eqb_neq in Hne as ->.
  - intros Hname. unfold handle at 1. rewrite Hst1. unfold importRobotAndConnect.
    rewrite truthy_btoa, Hname. simpl. by rewrite <- app_assoc.
Qed.

(** X14: when no data source of type [connection] with the id
    [foxglove-websocket] is available, a click on a named instance blocks
    the list for as long as it stays mounted: the callback of the import
    returns before it selects a source or clears the mark, and every click
    finds the mark set, so whatever clicks and callbacks follow, nothing
    more is done.  Only Refresh, which mounts the list anew without a mark,
    lets a click start an import again. *)
Theorem missing_source_blocks_the_list origin ancestorOrigins srcs st instance events :
  Forall (λ source, ¬ (type source = "connection" ∧ id source = "foxglove-websocket")) srcs →
  truthy (loadingInstance st) = false → name instance ≠ "" →
  let st1 := handle origin ancestorOrigins srcs st (Click instance) in
  foldl (handle origin ancestorOrigins srcs) st1 events = st1 ∧
  ∀ other,
    ∃ url,
      performed (handle origin ancestorOrigins srcs (remount st1) (Click other)) =
        performed st1 ++ [setLoadingInstance (Some (btoa (name other)));
                          importFromURL url other].
Proof.
  intros Hnone Hidle Hname. simpl.
  set (st1 := handle origin ancestorOrigins srcs st (Click instance)).
  assert (Hloading : truthy (loadingInstance st1) = true).
  { subst st1. unfold handle, importRobotAndConnect. rewrite Hidle.
    change (truthy (Some (btoa (name instance))) = true).
    rewrite truthy_btoa. by apply String.eqb_neq in Hname as ->. }
  clearbody st1. split.
  - induction events as [|ev rest IH]; [done|]. simpl.
    assert (Hstep : handle origin ancestorOrigins srcs st1 ev = st1).
    { destruct ev as [other|other]; unfold handle.
      - unfold importRobotAndConnect. by rewrite Hloading.
      - unfold onLayoutImported. by rewrite find_none_Forall. }
    by rewrite Hstep.
  - intros other. eexists. simpl. by rewrite <- app_assoc.
Qed.

(** X15: when such a data source is available, a click followed by the
    callback of its import selects the source [foxglove-websocket] as a
    connection, at [wss://] or [ws://] (by [secure]) followed by host name,
    colon and port, and then clears the mark, so that the list takes clicks
    again. *)
Theorem click_then_imported_connects origin ancestorOrigins srcs st instance :
  Exists (λ source, type source = "connection" ∧ id source = "foxglove-websocket") srcs →
  truthy (loadingInstance st) = false →
  let st1 := handle origin ancestorOrigins srcs st (Click instance) in
  let st2 := handle origin ancestorOrigins srcs st1 (LayoutImported instance) in
  loadingInstance st2 = None ∧
  performed st2 =
    performed st1 ++
    [ selectSource "foxglove-websocket" "connection"
        ((if secure instance then "wss://" else "ws://") ++ hostname instance ++ ":"
           ++ port instance)%string;
      setLoadingInstance None ] ∧
  ∀ other, performed (handle origin ancestorOrigins srcs st2 (Click other)) =
           performed st2 ++ importRobotAndConnect origin ancestorOrigins None other.
Proof.
  intros Hsome Hidle. cbv zeta.
  destruct (find_some_Exists srcs Hsome) as (source & Hfind & Hid).
  set (st1 := handle origin ancestorOrigins srcs st (Click instance)).
  assert (Hst2 : handle origin ancestorOrigins srcs st1 (LayoutImported instance) =
            {| loadingInstance := None;
               performed := performed st1 ++
                 [ selectSource "foxglove-websocket" "connection"
                     ((if secure instance then "wss://" else "ws://") ++ hostname instance
                        ++ ":" ++ port instance)%string;
                   setLoadingInstance None ] |}).
  { unfold handle, onLayoutImported. rewrite Hfind, Hid. simpl.
    unfold perform. simpl. by rewrite <- app_assoc. }
  rewrite Hst2. split; [done|]. split; [done|].
  intros other. unfold handle. by rewrite performed_foldl.
Qed.

(** X16: the address shown in the secondary text of an instance, after
    [URL: ], is the address that the callback connects to. *)
Theorem secondaryText_shows_connection_url srcs instance startedAtText sourceId argsType url :
  selectSource sourceId argsType url ∈ onLayoutImported srcs instance →
  secondaryText instance startedAtText =
    ("URL: " ++ url ++ " | Started at: " ++ startedAtText)%string.
Proof.
  unfold onLayoutImported, secondaryText. destruct (find _ _); intros Hin.
  - apply elem_of_cons in Hin as [[= _ _ ->]|Hin].
    + by rewrite !string_append_assoc.
    + apply elem_of_cons in Hin as [Hin|Hin]; [done|]. by apply elem_of_nil in Hin.
  - by apply elem_of_nil in Hin.
Qed.

Lemma latin1_Some units : is_Some (latin1 units) ↔ Forall (λ unit, (unit < 256)%N) units.
Proof.
  induction units as [|unit rest IH]; simpl.
  - split; [constructor | by eexists].
  - rewrite Forall_cons, <- IH. destruct (unit <? 256)%N eqn:Hunit.
    + apply N.ltb_lt in Hunit. destruct (latin1 rest).
      * split; [by split; [|eexists] | by eexists].
      * split; [by intros [] | by intros [_ []]].
    + apply N.ltb_ge in Hunit. split; [by intros [] | intros [Hlt _]; lia].
Qed.

Lemma latin1_inj units1 : ∀ units2 s,
  latin1 units1 = Some s → latin1 units2 = Some s → units1 = units2.
Proof.
  induction units1 as [|u1 rest1 IH]; intros [|u2 rest2] s; simpl.
  - done.
  - intros [= <-]. destruct (u2 <? 256)%N; [|done]. by destruct (latin1 rest2).
  - destruct (u1 <? 256)%N; [|done]. destruct (latin1 rest1); [|done]. by intros [= <-].
  - destruct (u1 <? 256)%N eqn:H1; [|done]. destruct (latin1 rest1) as [s1|] eqn:Hs1; [|done].
    intros [= <-].
    destruct (u2 <? 256)%N eqn:H2; [|done]. destruct (latin1 rest2) as [s2|] eqn:Hs2; [|done].
    intros [= Hc <-]. apply N.ltb_lt in H1, H2. f_equal.
    + rewrite <- (N_ascii_embedding u1), <- (N_ascii_embedding u2) by done. by rewrite Hc.
    + by apply (IH rest2 s2).
Qed.

Lemma btoaOf_Some units : is_Some (btoaOf units) ↔ Forall (λ unit, (unit < 256)%N) units.
Proof.
  rewrite <- latin1_Some. unfold btoaOf.
  destruct (latin1 units); split; try done; by eexists.
Qed.

Lemma btoaOf_inj units1 units2 key :
  btoaOf units1 = Some key → btoaOf units2 = Some key → units1 = units2.
Proof.
  unfold btoaOf.
  destruct (latin1 units1) as [s1|] eqn:H1; [|done].
  destruct (latin1 units2) as [s2|] eqn:H2; [|done].
  intros [= <-] [= Heq]. apply btoa_inj in Heq as ->. by apply (latin1_inj _ _ s1).
Qed.

Lemma itemKeys_elem names : ∀ keys key,
  itemKeys names = Some keys → key ∈ keys →
  ∃ units, units ∈ names ∧ btoaOf units = Some key.
Proof.
  induction names as [|units rest IH]; intros keys key; simpl.
  - intros [= <-] Hin. by apply elem_of_nil in Hin.
  - destruct (btoaOf units) as [k|] eqn:Hk; [|done].
    destruct (itemKeys rest) as [ks|] eqn:Hks; [|done].
    intros [= <-] Hin. apply elem_of_cons in Hin as [->|Hin].
    + exists units. split; [apply list_elem_of_here | done].
    + destruct (IH ks key eq_refl Hin) as (units' & Hin' & Hkey).
      exists units'. split; [by apply list_elem_of_further | done].
Qed.

(** X17: [btoa(instance.name)], computed for the key of every entry when
    the list is rendered, throws for a name with a code unit above 255 and
    for no other, so the render gives keys exactly when every name is
    within that range.  On those names the keys and the loading mark tell
    instances apart as their names do: equal keys mean equal names, names
    without repeats give keys without repeats, and after a click the
    progress indicator is shown on the instances named like the clicked one
    and on no other. *)
Theorem btoa_names_tell_instances_apart origin ancestorOrigins srcs st instance other
    (instances : list ArenaIntance) (names : list (list N)) :
  (is_Some (itemKeys names) ↔ Forall (Forall (λ unit, (unit < 256)%N)) names) ∧
  (∀ keys, itemKeys names = Some keys → NoDup names → NoDup keys) ∧
  (∀ units1 units2 key,
     btoaOf units1 = Some key → btoaOf units2 = Some key → units1 = units2) ∧
  (btoa (name instance) = btoa (name other) ↔ name instance = name other) ∧
  (NoDup (map name instances) → NoDup (map (λ i, btoa (name i)) instances)) ∧
  (truthy (loadingInstance st) = false →
   (showsProgress (loadingInstance (handle origin ancestorOrigins srcs st (Click instance)))
      other = true ↔ name other = name instance)).
Proof.
  split; [|split; [|split; [|split; [|split]]]].
  - induction names as [|units rest IH]; simpl.
    + split; [constructor | by eexists].
    + rewrite Forall_cons, <- IH, <- btoaOf_Some.
      destruct (btoaOf units); [|split; [by intros [] | by intros [[] _]]].
      destruct (itemKeys rest); split; try done; try (by eexists); by intros [].
  - induction names as [|units rest IH]; intros keys; simpl.
    + intros [= <-] _. constructor.
    + destruct (btoaOf units) as [k|] eqn:Hk; [|done].
      destruct (itemKeys rest) as [ks|] eqn:Hks; [|done].
      intros [= <-] Hnd. apply NoDup_cons in Hnd as [Hnotin Hnd].
      apply NoDup_cons. split; [|by apply IH].
      intros Hin. destruct (itemKeys_elem rest ks k Hks Hin) as (units' & Hin' & Hk').
      by rewrite (btoaOf_inj _ _ _ Hk Hk') in Hnotin.
  - apply btoaOf_inj.
  - split; [apply btoa_inj | by intros ->].
  - intros Hnd. rewrite <- (map_map name btoa). apply NoDup_fmap_2; [|done].
    intros s t. apply btoa_inj.
  - intros Hidle. unfold handle, importRobotAndConnect. rewrite Hidle. simpl.
    rewrite String.eqb_eq. split; [intros Heq; symmetry; by apply btoa_inj | by intros ->].
Qed.

End StartFacts.

(** * The further properties at work on the scenarios *)

Section MoreScenarioFacts.
Import Scenario.
#[local] Existing Instance host.
#[local] Existing Instance derived.

(** The renderable [lidar] of the scenario: visible, transform missing. *)
Lemma startFrame_reports_iff_missing_witness :
  renderables world = [] ++ ("/lidar", lidar) :: [("/camera", hidden); ("/odom", pinned)] ∧
  Forall (λ kr : string * Renderable,
            settingsPath (userData kr.2) ≠ settingsPath (userData lidar))
    [("/camera", hidden); ("/odom", pinned)] ∧
  errorAt (errors (startFrame 1000 "base_link" "map" world)) ["topics"; "/lidar"]
    MISSING_TRANSFORM =
  Some "Missing transform from frame <lidar> to frame <base_link> through frame <map>".
Proof.
  assert (Hafter : Forall (λ kr : string * Renderable,
                      settingsPath (userData kr.2) ≠ settingsPath (userData lidar))
                     [("/camera", hidden); ("/odom", pinned)])
    by (repeat constructor; discriminate).
  split; [reflexivity|]. split; [exact Hafter|].
  exact (startFrame_reports_iff_missing 1000 "base_link" "map" world
           [] "/lidar" lidar [("/camera", hidden); ("/odom", pinned)] eq_refl Hafter).
Defined.

(** Saving [visible] twice in the scenario's configuration. *)
Lemma saveSetting_last_write_wins_witness :
  looselyUndefined (VBool false) = false ∧ looselyUndefined (VBool true) = false ∧
  setModelled (config world) ["topics"; "/lidar"; "visible"] = true ∧
  ∃ w1 w2 w2',
    saveSetting ["topics"; "/lidar"; "visible"] (VBool false) world = Some w1 ∧
    saveSetting ["topics"; "/lidar"; "visible"] (VBool true) w1 = Some w2 ∧
    saveSetting ["topics"; "/lidar"; "visible"] (VBool true) world = Some w2' ∧
    config w2 = config w2'.
Proof.
  split; [reflexivity|]. split; [reflexivity|]. split; [reflexivity|].
  exact (saveSetting_last_write_wins ["topics"; "/lidar"; "visible"]
           (VBool false) (VBool true) world eq_refl eq_refl eq_refl).
Defined.

(** Saving at index 4 of the target offset of the camera leaves its distance
    alone and makes the length of the array 5. *)
Lemma saveSetting_keeps_other_paths_witness :
  "targetOffset" ≠ "distance" ∧
  (looselyUndefined (VNum 1) = false →
   setModelled (config world_with_camera) (["cameraState"] ++ "targetOffset" :: ["4"]) = true) ∧
  ∃ w',
    saveSetting (["cameraState"] ++ "targetOffset" :: ["4"]) (VNum 1) world_with_camera
      = Some w' ∧
    valueAt (config w') (["cameraState"] ++ "distance" :: []) = Some (VNum 20) ∧
    valueAt (config w') ["cameraState"; "targetOffset"; "length"] = Some (VNum 5).
Proof.
  assert (Hne : "targetOffset" ≠ "distance") by discriminate.
  assert (Hmodelled : looselyUndefined (VNum 1) = false →
            setModelled (config world_with_camera)
              (["cameraState"] ++ "targetOffset" :: ["4"]) = true)
    by (intros _; reflexivity).
  split; [exact Hne|]. split; [exact Hmodelled|].
  destruct (saveSetting_keeps_other_paths ["cameraState"] "targetOffset" ["4"] "distance" []
              (VNum 1) world_with_camera Hne Hmodelled) as (w' & Hsave & Hkept & _).
  assert (Hindex : "4" ≠ "0") by discriminate.
  assert (Hmodelled' : looselyUndefined (VNum 1) = false →
            setModelled (config world_with_camera)
              (["cameraState"; "targetOffset"] ++ "4" :: []) = true)
    by (intros _; reflexivity).
  destruct (saveSetting_keeps_other_paths ["cameraState"; "targetOffset"] "4" [] "0" []
              (VNum 1) world_with_camera Hindex Hmodelled') as (w'' & Hsave' & _ & Hlength).
  assert (Hsame : Some w'' = Some w') by (rewrite <- Hsave, <- Hsave'; reflexivity).
  injection Hsame as ->.
  exists w'. split; [exact Hsave|]. split.
  - rewrite Hkept; [reflexivity|]. intros _.
    apply (f_equal (λ o, if o is Some w
                         then isArrayLength (config w) ["cameraState"; "distance"]
                         else false)) in Hsave.
    exact (eq_sym Hsave).
  - apply (Hlength 3%Z [("0", VNum 0); ("1", VNum 0); ("2", VNum 0)] 4%Z);
      [reflexivity | repeat constructor | reflexivity | reflexivity].
Defined.

(** Unsetting [visible], which the scenario's configuration does not have. *)
Lemma saveSetting_unset_absent_witness :
  looselyUndefined VUndefined = true ∧ ["visible"] ≠ [] ∧
  valueAt (config world) ["visible"] = None ∧
  config <$> saveSetting ["visible"] VUndefined world = Some (config world).
Proof.
  assert (Hne : ["visible"] ≠ @nil string) by discriminate.
  split; [reflexivity|]. split; [exact Hne|]. split; [reflexivity|].
  exact (saveSetting_unset_absent ["visible"] VUndefined world eq_refl Hne eq_refl).
Defined.

(** Saving and unsetting [near] in the camera state of the scenario. *)
Lemma saveSetting_set_unset_restores_witness :
  looselyUndefined (VNum 1) = false ∧
  Forall (λ key, unsafeKey key = false) (["cameraState"] ++ ["near"]) ∧
  plainAlong (config world_with_camera) ["cameraState"] = true ∧
  valueAt (config world_with_camera) (["cameraState"] ++ ["near"]) = None ∧
  ∃ w1 w2,
    saveSetting (["cameraState"] ++ ["near"]) (VNum 1) world_with_camera = Some w1 ∧
    saveSetting (["cameraState"] ++ ["near"]) VUndefined w1 = Some w2 ∧
    config w2 = config world_with_camera.
Proof.
  assert (Hsafe : Forall (λ key, unsafeKey key = false) (["cameraState"] ++ ["near"]))
    by (repeat constructor).
  split; [reflexivity|]. split; [exact Hsafe|]. split; [reflexivity|].
  split; [reflexivity|].
  exact (saveSetting_set_unset_restores ["cameraState"] "near" (VNum 1) world_with_camera
           eq_refl Hsafe eq_refl eq_refl).
Defined.

(** Saving and unsetting [visible] under [topics] and [/lidar], neither of
    which the scenario's configuration has. *)
Lemma saveSetting_set_unset_leaves_container_witness :
  looselyUndefined (VBool false) = false ∧
  ["topics"; "/lidar"] ≠ [] ∧
  Forall (λ key, unsafeKey key = false) (["topics"; "/lidar"] ++ ["visible"]) ∧
  setModelled (config world) (["topics"; "/lidar"] ++ ["visible"]) = true ∧
  valueAt (config world) ["topics"; "/lidar"] = None ∧
  ∃ w1 w2 a inner,
    saveSetting (["topics"; "/lidar"] ++ ["visible"]) (VBool false) world = Some w1 ∧
    saveSetting (["topics"; "/lidar"] ++ ["visible"]) VUndefined w1 = Some w2 ∧
    valueAt (config w2) ["topics"; "/lidar"] = Some (VObj a inner) ∧
    getProperty a inner "visible" = None.
Proof.
  assert (Hsafe : Forall (λ key, unsafeKey key = false)
                    (["topics"; "/lidar"] ++ ["visible"])) by (repeat constructor).
  assert (Hne : ["topics"; "/lidar"] ≠ @nil string) by discriminate.
  split; [reflexivity|]. split; [exact Hne|]. split; [exact Hsafe|].
  split; [reflexivity|]. split; [reflexivity|].
  exact (saveSetting_set_unset_leaves_container ["topics"; "/lidar"] "visible"
           (VBool false) world eq_refl Hne Hsafe eq_refl).
Defined.

End MoreScenarioFacts.

Section StartScenarioFacts.
Import Start.

(** A click on the instance whose robot is named [../jack al]. *)
Lemma importRobotAndConnect_layout_url_witness :
  truthy None = false ∧
  ∃ folder,
    importRobotAndConnect "null" ["https://arena.example"] None jackal =
      [ setLoadingInstance (Some (btoa (name jackal)));
        importFromURL
          (getHostOrigin "null" ["https://arena.example"] ++ "/foxglove-assets/robot/"
             ++ folder ++ "/layout.json")%string jackal ] ∧
    list_ascii_of_string folder =
      filter (λ c, isAlnum c = true) (list_ascii_of_string (robot jackal)) ∧
    Forall (λ c, isAlnum c = true ∧ c ≠ "/"%char ∧ c ≠ "."%char)
      (list_ascii_of_string folder).
Proof.
  split; [reflexivity|].
  exact (importRobotAndConnect_layout_url "null" ["https://arena.example"] None jackal
           eq_refl).
Defined.

(** A second click while the first instance loads. *)
Lemma click_guard_witness :
  truthy (loadingInstance idle) = false ∧ name jackal ≠ "" ∧
  handle "https://x" [] sources (handle "https://x" [] sources idle (Click jackal))
    (Click burger) =
  handle "https://x" [] sources idle (Click jackal).
Proof.
  assert (Hname : name jackal ≠ "") by discriminate.
  split; [reflexivity|]. split; [exact Hname|].
  destruct (click_guard "https://x" [] sources idle jackal burger eq_refl)
    as (_ & _ & Hguard & _).
  exact (Hguard Hname).
Defined.

(** With only a file source available, nothing follows the first click
    until the list is mounted anew. *)
Lemma missing_source_blocks_the_list_witness :
  Forall (λ source, ¬ (type source = "connection" ∧ id source = "foxglove-websocket"))
    [ {| id := "mcap-local-file"; type := "file" |} ] ∧
  truthy (loadingInstance idle) = false ∧ name jackal ≠ "" ∧
  foldl (handle "https://x" [] [ {| id := "mcap-local-file"; type := "file" |} ])
    (handle "https://x" [] [ {| id := "mcap-local-file"; type := "file" |} ] idle
       (Click jackal))
    [LayoutImported jackal; Click burger; Click jackal] =
  handle "https://x" [] [ {| id := "mcap-local-file"; type := "file" |} ] idle (Click jackal) ∧
  ∃ url,
    performed
      (handle "https://x" [] [ {| id := "mcap-local-file"; type := "file" |} ]
         (remount (handle "https://x" [] [ {| id := "mcap-local-file"; type := "file" |} ]
                     idle (Click jackal)))
         (Click burger)) =
    performed (handle "https://x" [] [ {| id := "mcap-local-file"; type := "file" |} ] idle
                 (Click jackal))
    ++ [setLoadingInstance (Some (btoa (name burger))); importFromURL url burger].
Proof.
  assert (Hnone : Forall (λ source, ¬ (type source = "connection"
                                        ∧ id source = "foxglove-websocket"))
                    [ {| id := "mcap-local-file"; type := "file" |} ]).
  { repeat constructor. intros [Htype _]. discriminate Htype. }
  assert (Hname : name jackal ≠ "") by discriminate.
  split; [exact Hnone|]. split; [reflexivity|]. split; [exact Hname|].
  destruct (missing_source_blocks_the_list "https://x" []
              [ {| id := "mcap-local-file"; type := "file" |} ] idle jackal
              [LayoutImported jackal; Click burger; Click jackal] Hnone eq_refl Hname)
    as [Hblocked Hremount].
  split; [exact Hblocked | exact (Hremount burger)].
Defined.

(** The keys of a list of two instances, one of them named with an accented
    letter; and a name beyond the range of [btoa], with which the list is
    not rendered. *)
Example scenario_keys :
  itemKeys [[115; 105; 109; 45; 49]; [233]]%N = Some ["c2ltLTE="; "6Q=="] ∧
  btoaOf [115; 105; 109; 45; 49]%N = Some (btoa (name jackal)) ∧
  itemKeys [[115; 105; 109; 45; 49]; [20013]]%N = None.
Proof. by vm_compute. Qed.

(** The click and the callback with the websocket source available. *)
Lemma click_then_imported_connects_witness :
  Exists (λ source, type source = "connection" ∧ id source = "foxglove-websocket") sources ∧
  truthy (loadingInstance idle) = false ∧
  performed (handle "https://x" [] sources (handle "https://x" [] sources idle (Click jackal))
               (LayoutImported jackal)) =
    [ setLoadingInstance (Some "c2ltLTE=");
      importFromURL "https://x/foxglove-assets/robot/jackal/layout.json" jackal;
      selectSource "foxglove-websocket" "connection" "wss://arena.local:8765";
      setLoadingInstance None ].
Proof.
  assert (Hsome : Exists (λ source, type source = "connection"
                                    ∧ id source = "foxglove-websocket") sources).
  { apply Exists_cons_tl, Exists_cons_hd. by split. }
  split; [exact Hsome|]. split; [reflexivity|].
  destruct (click_then_imported_connects "https://x" [] sources idle jackal Hsome eq_refl)
    as (_ & Hperformed & _).
  exact Hperformed.
Defined.

(** The text under the entry of [burger] and the address it connects to. *)
Lemma secondaryText_shows_connection_url_witness :
  selectSource "foxglove-websocket" "connection" "ws://10.0.0.7:8766"
    ∈ onLayoutImported sources burger ∧
  secondaryText burger "01.05.2023, 11:00:00" =
    "URL: ws://10.0.0.7:8766 | Started at: 01.05.2023, 11:00:00".
Proof.
  assert (Hin : selectSource "foxglove-websocket" "connection" "ws://10.0.0.7:8766"
                  ∈ onLayoutImported sources burger) by apply list_elem_of_here.
  split; [exact Hin|].
  exact (secondaryText_shows_connection_url sources burger "01.05.2023, 11:00:00"
           "foxglove-websocket" "connection" "ws://10.0.0.7:8766" Hin).
Defined.

End StartScenarioFacts.
